(** * Tiered storage for FIA DuckDB files: [FIAStorage]

    A shallow embedding of the [FIAStorage] class of the storage-strategy
    document (backend/src/pyfia_api/services/storage.py) and the properties
    that the specification of the tiered resolver states about it.

    What is modelled, and how:
    - the local cache directory is a finite map from the stem of a
      [*.duckdb] file name (the upper-cased state code) to the file stored
      under it; [local_path.exists()] is a lookup in that map;
    - a file is its bytes and the two time stamps that [Path.touch] sets;
      [st_size] is the number of bytes;
    - the object-storage client ([self.s3]), [pyfia.download] and the order
      in which [Path.glob] lists a directory are outside the class: they
      are the fields of an environment record [Env], and the theorems hold
      for every environment whose [glob] lists each file of the directory
      once ([lists_dir]);
    - [pyfia.download] writes under [local_dir.parent / "temp"], which is
      not part of the cache directory, and the [rename] that follows is
      taken to succeed;
    - every method is a function from the world before the call to a result
      and the world after it; an exception is a result, and the effects made
      before it was raised stay in the world;
    - time stamps and the quota are integers. [max_local_bytes] is the float
      [max_local_gb * 1e9]; Python compares the integer [total_size] with it
      exactly, which is the comparison with its floor. *)

From stdpp Require Import base gmap list strings fin_maps sorting.
From Stdlib Require Import ZArith Lia Ascii.

Open Scope Z_scope.

(** ** Data *)

Abbreviation bytes := (list Byte.byte).

Record File := mkFile {
  content : bytes;
  st_atime : Z;
  st_mtime : Z
}.

Definition st_size (f : File) : Z := Z.of_nat (List.length (content f)).

(** The [*.duckdb] files of [self.local_dir], by file-name stem. *)
Abbreviation Dir := (gmap string File).

(** [str.upper()] on the ASCII letters. State codes are ASCII; other
    characters are left as they are. *)
Definition upper_ascii (c : ascii) : ascii :=
  let n := nat_of_ascii c in
  if ((97 <=? n) && (n <=? 122))%nat then ascii_of_nat (n - 32) else c.

Fixpoint upper (s : string) : string :=
  match s with
  | EmptyString => EmptyString
  | String c s' => String (upper_ascii c) (upper s')
  end.

(** Calls that leave the process: the network I/O of the resolver. *)
Inductive Call :=
  | S3Download (bucket key : string)   (* self.s3.download_file *)
  | S3Upload (bucket key : string)     (* self.s3.upload_file *)
  | FIADownload (state : string).      (* pyfia.download *)

Inductive Level := DEBUG | INFO | WARNING.

(** One constructor per [logger] call of the class. *)
Inductive LogRecord :=
  | LogLocalHit (state : string)          (* "Cache hit: {state} (local)" *)
  | LogS3Hit (state : string)             (* "Cache hit: {state} (S3)" *)
  | LogMiss (state : string)              (* "Cache miss: {state} - downloading ..." *)
  | LogS3DownloadFailed (state : string)  (* "S3 download failed for {state}: {e}" *)
  | LogUploaded (state : string)          (* "Uploaded {state} to S3" *)
  | LogS3UploadFailed (state : string)    (* "S3 upload failed for {state}: {e}" *)
  | LogEvicted (name : string) (size : Z). (* "Evicted {oldest.name} from cache (...)" *)

Definition level (r : LogRecord) : Level :=
  match r with
  | LogLocalHit _ => DEBUG
  | LogS3Hit _ | LogMiss _ | LogUploaded _ | LogEvicted _ _ => INFO
  | LogS3DownloadFailed _ | LogS3UploadFailed _ => WARNING
  end.

Record World := mkWorld {
  local : Dir;              (* the *.duckdb files of self.local_dir *)
  clock : Z;                (* the time the file system stamps files with *)
  calls : list Call;        (* network calls made so far, oldest first *)
  logs : list LogRecord     (* log records written so far, oldest first *)
}.

Definition set_local (d : Dir) (w : World) : World :=
  mkWorld d (clock w) (calls w) (logs w).
Definition set_clock (t : Z) (w : World) : World :=
  mkWorld (local w) t (calls w) (logs w).
Definition add_call (c : Call) (w : World) : World :=
  mkWorld (local w) (clock w) (calls w ++ [c]) (logs w).
Definition add_log (r : LogRecord) (w : World) : World :=
  mkWorld (local w) (clock w) (calls w) (logs w ++ [r]).

(** The instance attributes set by [__init__]. *)
Record FIAStorage := mkStorage {
  local_dir : string;
  s3_bucket : option string;
  s3_prefix : string;
  max_local_bytes : Z
}.

(** Truth value of [self.s3_bucket]: [None] and the empty string are false. *)
Definition truthy (b : option string) : bool :=
  match b with
  | Some (String _ _) => true
  | _ => false
  end.

(** [self.s3] is a client exactly when [s3_bucket] is truthy, else [None]. *)
Definition s3 (self : FIAStorage) : bool := truthy (s3_bucket self).

Definition bucket_name (self : FIAStorage) : string := default "" (s3_bucket self).

(** What [self.s3.download_file(bucket, key, dest)] can do: write the whole
    object to [dest] and return; raise [NoSuchKey]; or raise another
    exception. The boto3 client writes under a temporary name and renames
    when the transfer is complete, so a download that fails leaves nothing
    at [dest]: that is [S3Error None], and [client_atomic] below says that
    the client is of this kind. [S3Error (Some part)] stands for a client
    that would leave a part of the object at [dest]; the class is written
    against whatever [self.s3] is, and statements that hold for such a
    client too are stated without [client_atomic]. *)
Inductive S3Get :=
  | S3Object (data : bytes)
  | NoSuchKey
  | S3Error (partial : option bytes).

(** The collaborators of the class. *)
Record Env := mkEnv {
  glob : Dir -> list string;                  (* list(self.local_dir.glob("*.duckdb")) *)
  download_file : string -> string -> S3Get;  (* by bucket and key *)
  upload_file : option bytes -> string -> string -> bool;
                                              (* by the bytes at the source path, bucket
                                                 and key; true: returned, false: raised *)
  download : string -> option bytes           (* pyfia.download: None when it raises *)
}.

(** [glob] lists each file of the directory once, in an order of its own. *)
Definition lists_dir (env : Env) : Prop :=
  ∀ d : Dir, glob env d ≡ₚ (map_to_list d).*1.

(** ** Results, exceptions and sequencing *)

Inductive Exn :=
  | DownloadError (state : string)
  | FileNotFoundError (name : string).

Inductive Result (A : Type) :=
  | Ok (a : A)
  | Raise (e : Exn).
Arguments Ok {A} a.
Arguments Raise {A} e.

Definition M (A : Type) : Type := World → Result A * World.

Definition ret {A} (a : A) : M A := λ w, (Ok a, w).
Definition raise {A} (e : Exn) : M A := λ w, (Raise e, w).
Definition bind {A B} (m : M A) (k : A → M B) : M B :=
  λ w, match m w with
       | (Ok a, w') => k a w'
       | (Raise e, w') => (Raise e, w')
       end.

Notation "x <~ m ;; k" := (bind m (λ x, k))
  (at level 100, m at next level, right associativity).
Notation "m ;;; k" := (bind m (λ _, k))
  (at level 100, right associativity).

Definition log (r : LogRecord) : M unit := λ w, (Ok tt, add_log r w).
Definition call (c : Call) : M unit := λ w, (Ok tt, add_call c w).

(** ** The file system *)

Definition path_exists (name : string) : M bool :=
  λ w, (Ok (bool_decide (is_Some (local w !! name))), w).

Definition stat (name : string) : M File :=
  λ w, match local w !! name with
       | Some f => (Ok f, w)
       | None => (Raise (FileNotFoundError name), w)
       end.

(** The world in which [name] holds [data], written now: both time stamps
    are the current time. *)
Definition put_file (name : string) (data : bytes) (w : World) : World :=
  set_local (<[name := mkFile data (clock w) (clock w)]> (local w)) w.

Definition write_file (name : string) (data : bytes) : M unit :=
  λ w, (Ok tt, put_file name data w).

Definition unlink (name : string) : M unit :=
  λ w, match local w !! name with
       | Some _ => (Ok tt, set_local (delete name (local w)) w)
       | None => (Raise (FileNotFoundError name), w)
       end.

(** [Path.touch()]: sets both time stamps of an existing file to now, and
    creates an empty file when there is none. *)
Definition touch (name : string) : M unit :=
  λ w, match local w !! name with
       | Some f => (Ok tt, put_file name (content f) w)
       | None => (Ok tt, put_file name [] w)
       end.

(** ** Stable sort by key, as [list.sort(key=...)] *)

(** [x] goes before the first element whose key is not smaller. *)
Fixpoint insert_by {A} (key : A → Z) (x : A) (l : list A) : list A :=
  match l with
  | [] => [x]
  | y :: l' => if key y <? key x then y :: insert_by key x l' else x :: y :: l'
  end.

Fixpoint sort_by {A} (key : A → Z) (l : list A) : list A :=
  match l with
  | [] => []
  | x :: l' => insert_by key x (sort_by key l')
  end.

(** ** The methods of [FIAStorage] *)

Definition s3_key (self : FIAStorage) (state : string) : string :=
  s3_prefix self +:+ "/" +:+ state +:+ ".duckdb".

(** [self.local_dir / f"{state}.duckdb"] *)
Definition local_path (self : FIAStorage) (state : string) : string :=
  local_dir self +:+ "/" +:+ state +:+ ".duckdb".

Definition _download_from_s3 (self : FIAStorage) (env : Env) (state : string) : M bool :=
  if negb (s3 self) then ret false
  else
    call (S3Download (bucket_name self) (s3_key self state)) ;;;
    match download_file env (bucket_name self) (s3_key self state) with
    | S3Object data => write_file state data ;;; ret true
    | NoSuchKey => ret false
    | S3Error partial =>
        match partial with
        | Some part => write_file state part
        | None => ret tt
        end ;;;
        log (LogS3DownloadFailed state) ;;;
        ret false
    end.

Definition _upload_to_s3 (self : FIAStorage) (env : Env) (state : string) : M bool :=
  if negb (s3 self) then ret false
  else
    call (S3Upload (bucket_name self) (s3_key self state)) ;;;
    λ w,
      (if upload_file env (content <$> local w !! state) (bucket_name self) (s3_key self state)
       then log (LogUploaded state) ;;; ret true
       else log (LogS3UploadFailed state) ;;; ret false) w.

(** [download] writes under [local_dir.parent / "temp"], outside the cache
    directory; [rename] then puts that file, as it is, at the local path,
    replacing what was there. *)
Definition _download_from_fia (self : FIAStorage) (env : Env) (state : string) : M unit :=
  call (FIADownload state) ;;;
  match download env state with
  | Some data => write_file state data
  | None => raise (DownloadError state)
  end.

Definition _touch (name : string) : M unit := touch name.

(** [sum(f.stat().st_size for f in files)] *)
Fixpoint sum_sizes (files : list string) : M Z :=
  match files with
  | [] => ret 0
  | f :: files' =>
      s <~ stat f ;;
      n <~ sum_sizes files' ;;
      ret (st_size s + n)
  end.

(** The keys [f.stat().st_atime], computed for every file before sorting. *)
Fixpoint atime_keys (files : list string) : M (list (Z * string)) :=
  match files with
  | [] => ret []
  | f :: files' =>
      s <~ stat f ;;
      ks <~ atime_keys files' ;;
      ret ((st_atime s, f) :: ks)
  end.

(** The [while] loop: one iteration per element popped from the front. *)
Fixpoint evict_loop (self : FIAStorage) (files : list string) (total_size : Z) : M unit :=
  match files with
  | [] => ret tt
  | oldest :: files' =>
      if max_local_bytes self <? total_size then
        s <~ stat oldest ;;
        unlink oldest ;;;
        log (LogEvicted oldest (st_size s)) ;;;
        evict_loop self files' (total_size - st_size s)
      else ret tt
  end.

Definition _enforce_cache_limit (self : FIAStorage) (env : Env) : M unit :=
  λ w,
    let files := glob env (local w) in
    (total_size <~ sum_sizes files ;;
     if total_size <=? max_local_bytes self then ret tt
     else
       ks <~ atime_keys files ;;
       evict_loop self (sort_by fst ks).*2 total_size) w.

Definition get_db_path (self : FIAStorage) (env : Env) (state : string) : M string :=
  let state := upper state in
  let local_path := local_path self state in
  found <~ path_exists state ;;
  if found : bool then
    log (LogLocalHit state) ;;;
    _touch state ;;;
    ret local_path
  else
    hit <~ (if truthy (s3_bucket self) then _download_from_s3 self env state
            else ret false) ;;
    if hit : bool then
      log (LogS3Hit state) ;;;
      _enforce_cache_limit self env ;;;
      ret local_path
    else
      log (LogMiss state) ;;;
      _download_from_fia self env state ;;;
      _enforce_cache_limit self env ;;;
      (if truthy (s3_bucket self) then _upload_to_s3 self env state ;;; ret tt
       else ret tt) ;;;
      ret local_path.

(** * The notions the statements are written in *)

(** ** The stable sort *)

(** [x] stands before [y] in [l]. *)
Definition precedes {A} (l : list A) (x y : A) : Prop :=
  ∃ l1 l2 l3, l = l1 ++ x :: l2 ++ y :: l3.

(** The order a stable sort of [l] by [key] puts its elements in. *)
Definition sorted_before {A} (key : A → Z) (l : list A) (x y : A) : Prop :=
  key x < key y ∨ (key x = key y ∧ precedes l x y).

(** ** The cache directory *)

Definition sumZ (l : list Z) : Z := foldr Z.add 0 l.

(** The sum of the sizes of the files of the directory. *)
Definition dir_size (d : Dir) : Z := sumZ (st_size ∘ snd <$> map_to_list d).

(** The size [stat] reports for [name] in [d] (0 stands for no file). *)
Definition size_in (d : Dir) (name : string) : Z := from_option st_size 0 (d !! name).

Definition sizes_in (d : Dir) (names : list string) : Z := sumZ (size_in d <$> names).

(** The directory after [unlink] of each of [names]. *)
Definition remove_all (names : list string) (d : Dir) : Dir := foldr delete d names.

(** ** The eviction pass *)

Definition atime_in (d : Dir) (name : string) : Z := from_option st_atime 0 (d !! name).

(** The files the [while] loop unlinks, front to back: it stops at the
    first file at which the running total is within the limit. *)
Fixpoint victims (limit : Z) (d : Dir) (files : list string) (total_size : Z) : list string :=
  match files with
  | [] => []
  | oldest :: files' =>
      if limit <? total_size
      then oldest :: victims limit d files' (total_size - size_in d oldest)
      else []
  end.

(** The files in the order the pass considers them: the listing of [glob],
    sorted by access time, the sort being stable. *)
Definition lru_order (env : Env) (d : Dir) : list string :=
  (sort_by fst ((λ n, (atime_in d n, n)) <$> glob env d)).*2.

(** The files one pass unlinks. *)
Definition evicted (self : FIAStorage) (env : Env) (d : Dir) : list string :=
  if dir_size d <=? max_local_bytes self then []
  else victims (max_local_bytes self) d (lru_order env d) (dir_size d).

Definition evicted_logs (d : Dir) (names : list string) : list LogRecord :=
  (λ n, LogEvicted n (size_in d n)) <$> names.

(** The world after a pass that unlinked [names]. *)
Definition after_eviction (names : list string) (w : World) : World :=
  mkWorld (remove_all names (local w)) (clock w) (calls w)
          (logs w ++ evicted_logs (local w) names).

(** The order in which a pass takes the files: by access time, and by
    their place in the listing of [glob] when the access times are equal. *)
Definition lru_before (env : Env) (d : Dir) (x y : string) : Prop :=
  atime_in d x < atime_in d y ∨
  (atime_in d x = atime_in d y ∧ precedes (glob env d) x y).

(** ** [get_db_path], branch by branch *)

(** The condition [self.s3_bucket and self._download_from_s3(...)]. *)
Definition s3_tier (self : FIAStorage) (env : Env) (state : string) : M bool :=
  if truthy (s3_bucket self) then _download_from_s3 self env state else ret false.

(** The object the S3 tier delivers for [state], if it delivers one. *)
Definition s3_object (self : FIAStorage) (env : Env) (state : string) : option bytes :=
  if truthy (s3_bucket self) then
    match download_file env (bucket_name self) (s3_key self state) with
    | S3Object data => Some data
    | _ => None
    end
  else None.

(** The network calls of the two S3 steps: none without a bucket. *)
Definition s3_download_calls (self : FIAStorage) (state : string) : list Call :=
  if truthy (s3_bucket self) then [S3Download (bucket_name self) (s3_key self state)] else [].
Definition s3_upload_calls (self : FIAStorage) (state : string) : list Call :=
  if truthy (s3_bucket self) then [S3Upload (bucket_name self) (s3_key self state)] else [].

(** What [get_db_path] does once the test of [local_path.exists()] has
    answered [False]: the rest of its body, for the upper-cased [state]. *)
Definition miss_branch (self : FIAStorage) (env : Env) (state : string) : M string :=
  hit <~ (if truthy (s3_bucket self) then _download_from_s3 self env state
          else ret false) ;;
  if hit : bool then
    log (LogS3Hit state) ;;;
    _enforce_cache_limit self env ;;;
    ret (local_path self state)
  else
    log (LogMiss state) ;;;
    _download_from_fia self env state ;;;
    _enforce_cache_limit self env ;;;
    (if truthy (s3_bucket self) then _upload_to_s3 self env state ;;; ret tt
     else ret tt) ;;;
    ret (local_path self state).

(** ** Collaborators to run the methods with *)

(** A directory listing in the order of the map's own enumeration, and one
    in the opposite order. *)
Definition listing (d : Dir) : list string := (map_to_list d).*1.
Definition listing_rev (d : Dir) : list string := reverse (map_to_list d).*1.

(** No bucket answers, uploads succeed, and the DataMart has [data] for
    every state in [states]. *)
Definition simple_env (ls : Dir → list string) (states : list string) (data : bytes) : Env :=
  mkEnv ls (λ _ _, NoSuchKey) (λ src _ _, bool_decide (is_Some src))
        (λ s, if bool_decide (s ∈ states) then Some data else None).

Definition empty_world : World := mkWorld ∅ 0 [] [].

(** A file of [n] zero bytes. *)
Definition blob (n : nat) : bytes := replicate n Byte.x00.

(** [get_db_path] called when the clock reads [t]; the world it leaves. *)
Definition resolve_at (self : FIAStorage) (env : Env) (t : Z) (state : string)
    (w : World) : World :=
  snd (get_db_path self env state (set_clock t w)).

(** The directory after the population writes [puts], oldest first. *)
Definition put_all (puts : list (string * bytes)) (w : World) : World :=
  foldl (λ w p, put_file p.1 p.2 w) w puts.

(** The directory right after [data] was written for [state], before the
    eviction pass of the same call. *)
Definition populated (state : string) (data : bytes) (w : World) : Dir :=
  <[upper state := mkFile data (clock w) (clock w)]> (local w).

(** What the slower tiers deliver for [state]: the S3 object when the S3
    tier has a hit, else what [pyfia.download] produces. *)
Definition fetched (self : FIAStorage) (env : Env) (state : string) : option bytes :=
  match s3_object self env state with
  | Some data => Some data
  | None => download env state
  end.

(** ** Population that fails on the way *)

(** The client leaves nothing at the destination of a download that fails. *)
Definition client_atomic (env : Env) : Prop :=
  ∀ bucket key part, download_file env bucket key ≠ S3Error (Some part).




(** ** Callers that overlap *)

(** [get_db_path] takes no lock and keeps no table of fetches in flight.
    Between its test of [local_path.exists()] and its population of the
    directory another caller can run, so a caller is modelled by where it
    stands with respect to that test. A caller that finds the file completes
    in its first step; a caller that does not has seen the miss, and
    completes the rest of the body in its second step. Every schedule of
    these steps is an execution of the callers. *)
Inductive Caller :=
  | Entering
  | SawMiss
  | Returned (r : Result string).

Definition step (self : FIAStorage) (env : Env) (state : string) (c : Caller)
    (w : World) : Caller * World :=
  match c with
  | Entering =>
      match local w !! upper state with
      | Some _ => let '(r, w') := get_db_path self env state w in (Returned r, w')
      | None => (SawMiss, w)
      end
  | SawMiss =>
      let '(r, w') := miss_branch self env (upper state) w in (Returned r, w')
  | Returned r => (Returned r, w)
  end.

(** The callers of the pool move in the order of the schedule. *)
Fixpoint run (self : FIAStorage) (env : Env) (state : string) (schedule : list nat)
    (pool : list Caller) (w : World) : list Caller * World :=
  match schedule with
  | [] => (pool, w)
  | i :: schedule' =>
      match pool !! i with
      | Some c =>
          let '(c', w') := step self env state c w in
          run self env state schedule' (<[i := c']> pool) w'
      | None => run self env state schedule' pool w
      end
  end.

Definition is_origin_fetch (state : string) (c : Call) : bool :=
  match c with
  | FIADownload s => bool_decide (s = state)
  | _ => false
  end.

Definition is_remote_lookup (c : Call) : bool :=
  match c with
  | S3Download _ _ => true
  | _ => false
  end.

Fixpoint count_calls (p : Call → bool) (cs : list Call) : nat :=
  match cs with
  | [] => 0
  | c :: cs' => ((if p c then 1 else 0) + count_calls p cs')%nat
  end.

(** The number of downloads from the DataMart for [state] among [cs]. *)
Definition origin_fetches (state : string) (cs : list Call) : nat :=
  count_calls (is_origin_fetch state) cs.

(** The number of S3 download requests among [cs]. *)
Definition remote_lookups (cs : list Call) : nat :=
  count_calls is_remote_lookup cs.

(** ** [preload] *)

(** [preload] calls [get_db_path] for each state in turn; an exception is
    caught and logged as the warning "Failed to preload {state}: {e}", and the
    loop goes on. The warnings are returned, in the order they are logged,
    beside the world the loop leaves. *)
Fixpoint preload (self : FIAStorage) (env : Env) (states : list string) (w : World)
    : list (string * Exn) * World :=
  match states with
  | [] => ([], w)
  | state :: states' =>
      match get_db_path self env state w with
      | (Ok _, w') => preload self env states' w'
      | (Raise e, w') =>
          let '(warnings, w'') := preload self env states' w' in
          ((state, e) :: warnings, w'')
      end
  end.

(** The size of what the slower tiers deliver for [s] (0 when nothing is
    delivered), and the sum of these sizes over [states]. *)
Definition fetch_size (self : FIAStorage) (env : Env) (s : string) : Z :=
  from_option (λ data, Z.of_nat (length data)) 0 (fetched self env (upper s)).

Definition fetch_sizes (self : FIAStorage) (env : Env) (states : list string) : Z :=
  sumZ (fetch_size self env <$> states).

(** ** The build script, scripts/build_fia_cache.py *)

Definition STATES : list string :=
  ["AL"; "AK"; "AZ"; "AR"; "CA"; "CO"; "CT"; "DE"; "FL"; "GA";
   "HI"; "ID"; "IL"; "IN"; "IA"; "KS"; "KY"; "LA"; "ME"; "MD";
   "MA"; "MI"; "MN"; "MS"; "MO"; "MT"; "NE"; "NV"; "NH"; "NJ";
   "NM"; "NY"; "NC"; "ND"; "OH"; "OK"; "OR"; "PA"; "RI"; "SC";
   "SD"; "TN"; "TX"; "UT"; "VT"; "VA"; "WA"; "WV"; "WI"; "WY"].

(** One constructor per [logger] call of the script. *)
Inductive BuildLog :=
  | BuildProcessing (state : string)          (* "Processing {state}..." *)
  | BuildUploaded (state : string) (size : Z) (* "  ✓ Uploaded {state} (... MB)" *)
  | BuildFailed (state : string)              (* "  ✗ Failed {state}: {e}" *)
  | BuildComplete.                            (* "Build complete!" *)

Record BuildWorld := mkBuild {
  work : Dir;                (* the files of work_dir, by the state they hold *)
  build_clock : Z;
  build_calls : list Call;   (* oldest first *)
  build_logs : list BuildLog (* oldest first *)
}.

(** The key [f"{prefix}/{state}.duckdb"] of the script. *)
Definition build_key (prefix state : string) : string :=
  prefix +:+ "/" +:+ state +:+ ".duckdb".

(** One turn of the [for] loop: the body of the [try], and the [except]
    that logs the failure. [download] puts the file in the work directory (a
    download that raises is taken to leave none there); the file is unlinked
    only after the upload has returned. *)
Definition build_state (env : Env) (bucket prefix state : string) (b : BuildWorld)
    : BuildWorld :=
  let logs1 := build_logs b ++ [BuildProcessing state] in
  let calls1 := build_calls b ++ [FIADownload state] in
  match download env state with
  | None => mkBuild (work b) (build_clock b) calls1 (logs1 ++ [BuildFailed state])
  | Some data =>
      let f := mkFile data (build_clock b) (build_clock b) in
      let calls2 := calls1 ++ [S3Upload bucket (build_key prefix state)] in
      if upload_file env (Some data) bucket (build_key prefix state) then
        mkBuild (delete state (<[state := f]> (work b))) (build_clock b) calls2
                (logs1 ++ [BuildUploaded state (st_size f)])
      else
        mkBuild (<[state := f]> (work b)) (build_clock b) calls2
                (logs1 ++ [BuildFailed state])
  end.

Definition build_states (env : Env) (bucket prefix : string) (states : list string)
    (b : BuildWorld) : BuildWorld :=
  foldl (λ b state, build_state env bucket prefix state b) b states.

Definition build_and_upload (env : Env) (bucket prefix : string) (b : BuildWorld)
    : BuildWorld :=
  let b' := build_states env bucket prefix STATES b in
  mkBuild (work b') (build_clock b') (build_calls b') (build_logs b' ++ [BuildComplete]).

(** The calls of the script for one state. *)
Definition build_calls_of (env : Env) (bucket prefix state : string) : list Call :=
  FIADownload state ::
  match download env state with
  | Some _ => [S3Upload bucket (build_key prefix state)]
  | None => []
  end.

(** * Supporting lemmas *)

(** ** The stable sort *)

Lemma precedes_cons {A} (a : A) l x y : precedes l x y → precedes (a :: l) x y.
Proof. intros (l1 & l2 & l3 & ->). by exists (a :: l1), l2, l3. Qed.

Lemma precedes_head {A} (a : A) l y : y ∈ l → precedes (a :: l) a y.
Proof.
  intros (l2 & l3 & ->)%list_elem_of_split. by exists [], l2, l3.
Qed.

Lemma precedes_fmap {A B} (f : A → B) l x y :
  precedes l x y → precedes (f <$> l) (f x) (f y).
Proof.
  intros (l1 & l2 & l3 & ->). exists (f <$> l1), (f <$> l2), (f <$> l3).
  by rewrite !fmap_app, !fmap_cons, fmap_app, fmap_cons.
Qed.

Lemma StronglySorted_mono {A} (R1 R2 : relation A) l :
  (∀ x y, R1 x y → R2 x y) → StronglySorted R1 l → StronglySorted R2 l.
Proof.
  intros HR. induction 1 as [|x l Hs IH Hall]; constructor; [done|].
  eapply Forall_impl; [exact Hall|]. intros y. apply HR.
Qed.

Section SortFacts.
Context {A : Type} (key : A → Z).

Lemma insert_by_perm x l : insert_by key x l ≡ₚ x :: l.
Proof.
  induction l as [|y l IH]; simpl; [done|].
  destruct (key y <? key x); [|done].
  rewrite IH. apply Permutation_swap.
Qed.

Lemma sort_by_perm l : sort_by key l ≡ₚ l.
Proof.
  induction l as [|x l IH]; simpl; [done|].
  by rewrite insert_by_perm, IH.
Qed.

Lemma insert_by_sorted (R : relation A) x l :
  (∀ y, y ∈ l → key y < key x → R y x) →
  (∀ y, y ∈ l → key x ≤ key y → R x y) →
  (∀ y z, R y z → key y ≤ key z) →
  StronglySorted R l → StronglySorted R (insert_by key x l).
Proof.
  intros Hlt Hge Hle. induction 1 as [|y l Hs IH Hall]; simpl.
  - repeat constructor.
  - destruct (Z.ltb_spec (key y) (key x)) as [Hyx|Hxy].
    + constructor.
      * apply IH; intros z Hz; [apply Hlt | apply Hge]; by right.
      * rewrite insert_by_perm. constructor; [apply Hlt; [by left|done]|done].
    + constructor; [by constructor|].
      constructor; [apply Hge; [by left|done]|].
      rewrite Forall_forall in Hall |- *. intros z Hz.
      apply Hge; [by right|]. specialize (Hle _ _ (Hall _ Hz)). lia.
Qed.

Lemma sort_by_stable l : StronglySorted (sorted_before key l) (sort_by key l).
Proof.
  induction l as [|a l IH]; simpl; [constructor|].
  apply insert_by_sorted.
  - intros y _ Hlt. by left.
  - intros y Hy Hle. destruct (decide (key a = key y)) as [Heq|Hne].
    + right. split; [done|]. apply precedes_head. by rewrite <-(sort_by_perm l).
    + left. lia.
  - intros y z [Hlt|[Heq _]]; lia.
  - eapply StronglySorted_mono; [|exact IH].
    intros y z [Hlt|[Heq Hp]]; [by left|right]. split; [done|].
    by apply precedes_cons.
Qed.
End SortFacts.

Lemma insert_by_ext {A} (key1 key2 : A → Z) x l :
  key1 x = key2 x → (∀ y, y ∈ l → key1 y = key2 y) →
  insert_by key1 x l = insert_by key2 x l.
Proof.
  intros Hx. induction l as [|y l IH]; intros Hl; simpl; [done|].
  rewrite Hx, (Hl y) by (by left).
  destruct (key2 y <? key2 x); [|done].
  f_equal. apply IH. intros z Hz. apply Hl. by right.
Qed.

Lemma sort_by_ext {A} (key1 key2 : A → Z) l :
  (∀ y, y ∈ l → key1 y = key2 y) → sort_by key1 l = sort_by key2 l.
Proof.
  induction l as [|x l IH]; intros Hl; simpl; [done|].
  rewrite IH by (intros y Hy; apply Hl; by right).
  apply insert_by_ext; [apply Hl; by left|].
  intros y Hy. apply Hl. right. by rewrite <-(sort_by_perm key2 l).
Qed.

(** ** The cache directory *)

#[global] Instance sumZ_perm : Proper ((≡ₚ) ==> (=)) sumZ.
Proof.
  intros l1 l2 H. induction H; simpl; lia.
Qed.

Lemma sumZ_app l1 l2 : sumZ (l1 ++ l2) = sumZ l1 + sumZ l2.
Proof. induction l1; simpl; lia. Qed.

Lemma st_size_nonneg f : 0 ≤ st_size f.
Proof. unfold st_size. lia. Qed.

Lemma sumZ_sizes_nonneg (l : list (string * File)) : 0 ≤ sumZ (st_size ∘ snd <$> l).
Proof.
  unfold sumZ. induction l as [|[n f] l IH]; cbn; [lia|].
  pose proof (st_size_nonneg f). lia.
Qed.

Lemma dir_size_nonneg d : 0 ≤ dir_size d.
Proof. apply sumZ_sizes_nonneg. Qed.

Lemma dir_size_empty : dir_size ∅ = 0.
Proof. unfold dir_size. by rewrite map_to_list_empty. Qed.

Lemma dir_size_delete (d : Dir) name f :
  d !! name = Some f → dir_size (delete name d) = dir_size d - st_size f.
Proof.
  intros H. unfold dir_size. rewrite <-(map_to_list_delete d name f H).
  unfold sumZ. cbn. lia.
Qed.

Lemma dir_size_insert_fresh (d : Dir) name f :
  d !! name = None → dir_size (<[name := f]> d) = st_size f + dir_size d.
Proof.
  intros H. unfold dir_size. by rewrite (map_to_list_insert d name f H).
Qed.

Lemma dir_size_lookup_le (d : Dir) name f : d !! name = Some f → st_size f ≤ dir_size d.
Proof.
  intros H. pose proof (dir_size_delete d name f H).
  pose proof (dir_size_nonneg (delete name d)). lia.
Qed.

Lemma sizes_in_keys (d : Dir) (l : list (string * File)) :
  (∀ n f, (n, f) ∈ l → d !! n = Some f) →
  sizes_in d l.*1 = sumZ (st_size ∘ snd <$> l).
Proof.
  induction l as [|[n f] l IH]; intros H; [done|].
  unfold sizes_in, sumZ in *. cbn. rewrite IH.
  - unfold size_in. rewrite (H n f); [done|by left].
  - intros n' f' Hin. apply H. by right.
Qed.

Lemma sizes_in_glob (d : Dir) names :
  names ≡ₚ (map_to_list d).*1 → sizes_in d names = dir_size d.
Proof.
  intros Hp. unfold sizes_in. rewrite Hp. apply sizes_in_keys.
  intros n f. apply elem_of_map_to_list.
Qed.

Lemma lookup_remove_all names (d : Dir) n :
  remove_all names d !! n = if decide (n ∈ names) then None else d !! n.
Proof.
  induction names as [|a names IH]; simpl.
  - destruct (decide (n ∈ [])) as [H|H]; [by apply elem_of_nil in H|done].
  - destruct (decide (a = n)) as [->|Hne].
    + rewrite lookup_delete_eq. destruct (decide (n ∈ n :: names)) as [H|H]; [done|].
      destruct H. by left.
    + rewrite lookup_delete_ne by done. rewrite IH.
      destruct (decide (n ∈ names)) as [H|H], (decide (n ∈ a :: names)) as [H'|H'];
        try done.
      * destruct H'. by right.
      * apply elem_of_cons in H' as [->|H']; done.
Qed.

Lemma remove_all_delete names (d : Dir) a :
  remove_all names (delete a d) = remove_all (a :: names) d.
Proof.
  apply map_eq. intros n. simpl.
  destruct (decide (a = n)) as [->|Hne].
  - rewrite lookup_delete_eq, lookup_remove_all. case_decide; [done|apply lookup_delete_eq].
  - rewrite (lookup_delete_ne _ a n) by done. rewrite !lookup_remove_all.
    case_decide; [done|]. by rewrite lookup_delete_ne.
Qed.

Lemma sizes_in_cons (d : Dir) a names :
  sizes_in d (a :: names) = size_in d a + sizes_in d names.
Proof. done. Qed.

Lemma sizes_in_app (d : Dir) l1 l2 :
  sizes_in d (l1 ++ l2) = sizes_in d l1 + sizes_in d l2.
Proof. unfold sizes_in. by rewrite fmap_app, sumZ_app. Qed.

Lemma dir_size_remove_all names (d : Dir) :
  NoDup names → (∀ n, n ∈ names → is_Some (d !! n)) →
  dir_size (remove_all names d) = dir_size d - sizes_in d names.
Proof.
  induction 1 as [|a names Ha Hnd IH]; intros Hex.
  - unfold sizes_in, sumZ. cbn. lia.
  - destruct (Hex a) as [f Hf]; [by left|].
    change (remove_all (a :: names) d) with (delete a (remove_all names d)).
    rewrite (dir_size_delete _ a f).
    + rewrite IH by (intros; apply Hex; by right).
      rewrite sizes_in_cons. unfold size_in. rewrite Hf. cbn. lia.
    + rewrite lookup_remove_all. by destruct (decide (a ∈ names)).
Qed.

Lemma remove_all_keys (d : Dir) names :
  (∀ n, is_Some (d !! n) → n ∈ names) → remove_all names d = ∅.
Proof.
  intros H. apply map_empty. intros n. rewrite lookup_remove_all.
  destruct (decide (n ∈ names)) as [Hn|Hn]; [done|]. destruct (d !! n) eqn:E; [|done].
  destruct Hn. apply H. by rewrite E.
Qed.

(** ** The eviction pass *)

Lemma sum_sizes_ok files w :
  (∀ n, n ∈ files → is_Some (local w !! n)) →
  sum_sizes files w = (Ok (sizes_in (local w) files), w).
Proof.
  induction files as [|f files IH]; intros Hex; [done|].
  destruct (Hex f) as [s Hs]; [by left|].
  rewrite sizes_in_cons. unfold size_in at 1. rewrite Hs.
  cbn. unfold bind, stat. rewrite Hs, IH by (intros; apply Hex; by right). done.
Qed.

Lemma atime_keys_ok files w :
  (∀ n, n ∈ files → is_Some (local w !! n)) →
  atime_keys files w = (Ok ((λ n, (atime_in (local w) n, n)) <$> files), w).
Proof.
  induction files as [|f files IH]; intros Hex; [done|].
  destruct (Hex f) as [s Hs]; [by left|].
  rewrite fmap_cons. unfold atime_in at 1. rewrite Hs.
  cbn. unfold bind, stat. rewrite Hs, IH by (intros; apply Hex; by right). done.
Qed.

Lemma victims_prefix limit d files total :
  ∃ rest, files = victims limit d files total ++ rest.
Proof.
  revert total. induction files as [|f files IH]; intros total; simpl.
  - by exists [].
  - destruct (limit <? total).
    + destruct (IH (total - size_in d f)) as [rest Hrest].
      exists rest. simpl. by rewrite <-Hrest.
    + by exists (f :: files).
Qed.

Lemma victims_subseteq limit d files total n :
  n ∈ victims limit d files total → n ∈ files.
Proof.
  destruct (victims_prefix limit d files total) as [rest Hrest].
  intros H. rewrite Hrest. apply elem_of_app. by left.
Qed.

Lemma victims_ext limit d1 d2 files total :
  (∀ n, n ∈ files → size_in d1 n = size_in d2 n) →
  victims limit d1 files total = victims limit d2 files total.
Proof.
  revert total. induction files as [|f files IH]; intros total H; simpl; [done|].
  destruct (limit <? total); [|done].
  rewrite (H f) by (by left). f_equal. apply IH. intros n Hn. apply H. by right.
Qed.

Lemma evicted_logs_ext d1 d2 names :
  (∀ n, n ∈ names → size_in d1 n = size_in d2 n) →
  evicted_logs d1 names = evicted_logs d2 names.
Proof.
  intros H. unfold evicted_logs. apply list_fmap_ext. intros i n Hn.
  f_equal. apply H. by eapply list_elem_of_lookup_2.
Qed.

(** The loop never fails on files that exist and are listed once, and what
    it leaves is the directory without the [victims]. *)
Lemma evict_loop_eq self files total w :
  NoDup files → (∀ n, n ∈ files → is_Some (local w !! n)) →
  evict_loop self files total w =
    (Ok tt, after_eviction (victims (max_local_bytes self) (local w) files total) w).
Proof.
  intros Hnd. revert total w.
  induction Hnd as [|f files Hf Hnd IH]; intros total w Hex; simpl.
  - unfold ret, after_eviction, evicted_logs. simpl. rewrite app_nil_r. by destruct w.
  - destruct (max_local_bytes self <? total); cycle 1.
    { unfold ret, after_eviction, evicted_logs. simpl. rewrite app_nil_r. by destruct w. }
    destruct (Hex f) as [s Hs]; [by left|].
    unfold bind at 1. unfold stat. rewrite Hs.
    unfold bind at 1. unfold unlink. rewrite Hs.
    unfold bind at 1. unfold log.
    assert (Hsame : ∀ n, n ∈ files → size_in (delete f (local w)) n = size_in (local w) n).
    { intros n Hn. unfold size_in. rewrite lookup_delete_ne; [done|]. by intros ->. }
    rewrite IH; cycle 1.
    { intros n Hn. simpl. rewrite lookup_delete_ne by (by intros ->). apply Hex. by right. }
    f_equal. unfold after_eviction. simpl.
    rewrite (victims_ext _ (delete f (local w)) (local w)) by done.
    unfold size_in at 1 3. rewrite Hs. simpl.
    rewrite remove_all_delete. f_equal.
    rewrite <-app_assoc. f_equal. simpl. unfold size_in at 1. rewrite Hs. simpl. f_equal.
    apply evicted_logs_ext. intros n Hn. apply Hsame.
    by eapply victims_subseteq.
Qed.

Lemma glob_NoDup env (d : Dir) : lists_dir env → NoDup (glob env d).
Proof. intros H. rewrite (H d). apply NoDup_fst_map_to_list. Qed.

Lemma elem_of_glob env (d : Dir) n : lists_dir env → n ∈ glob env d ↔ is_Some (d !! n).
Proof.
  intros H. rewrite (H d). rewrite list_elem_of_fmap. split.
  - intros ([n' f] & -> & Hin). apply elem_of_map_to_list in Hin. by exists f.
  - intros [f Hf]. exists (n, f). split; [done|]. by apply elem_of_map_to_list.
Qed.

Lemma keyed_names (d : Dir) (files : list string) :
  ((λ n, (atime_in d n, n)) <$> files).*2 = files.
Proof. rewrite <-list_fmap_compose. induction files; [done|]. cbn. by f_equal. Qed.

Lemma lru_order_perm env (d : Dir) : lru_order env d ≡ₚ glob env d.
Proof. unfold lru_order. by rewrite sort_by_perm, keyed_names. Qed.

Lemma elem_of_lru_order env (d : Dir) n :
  lists_dir env → n ∈ lru_order env d ↔ is_Some (d !! n).
Proof. intros H. rewrite lru_order_perm. by apply elem_of_glob. Qed.

Lemma lru_order_NoDup env (d : Dir) : lists_dir env → NoDup (lru_order env d).
Proof. intros H. rewrite lru_order_perm. by apply glob_NoDup. Qed.

Lemma after_eviction_nil w : after_eviction [] w = w.
Proof. unfold after_eviction, evicted_logs. simpl. rewrite app_nil_r. by destruct w. Qed.

(** The pass as a function of the world it starts in. *)
Lemma _enforce_cache_limit_eq self env w :
  lists_dir env →
  _enforce_cache_limit self env w = (Ok tt, after_eviction (evicted self env (local w)) w).
Proof.
  intros Hl. unfold _enforce_cache_limit, evicted.
  unfold bind at 1. rewrite sum_sizes_ok by (intros n; by apply elem_of_glob).
  rewrite sizes_in_glob by apply Hl.
  destruct (dir_size (local w) <=? max_local_bytes self).
  { by rewrite after_eviction_nil. }
  unfold bind. rewrite atime_keys_ok by (intros n; by apply elem_of_glob).
  apply evict_loop_eq.
  - by apply lru_order_NoDup.
  - intros n. by apply elem_of_lru_order.
Qed.

Lemma victims_stop limit d files total :
  victims limit d files total = files ∨
  total - sizes_in d (victims limit d files total) ≤ limit.
Proof.
  revert total. induction files as [|f files IH]; intros total; simpl; [by left|].
  destruct (Z.ltb_spec limit total) as [Hlt|Hge].
  - destruct (IH (total - size_in d f)) as [->|Hle]; [by left|right].
    rewrite sizes_in_cons. lia.
  - right. unfold sizes_in, sumZ. cbn. lia.
Qed.

(** Whenever a further file is unlinked, the total was still over the limit. *)
Lemma victims_over limit d files total ev1 ev2 :
  victims limit d files total = ev1 ++ ev2 → ev2 ≠ [] →
  limit < total - sizes_in d ev1.
Proof.
  revert total ev1. induction files as [|f files IH]; intros total ev1; simpl.
  - intros H Hne. symmetry in H. apply app_eq_nil in H as [_ ?]. done.
  - destruct (Z.ltb_spec limit total) as [Hlt|Hge].
    + destruct ev1 as [|a ev1]; simpl.
      * intros _ _. unfold sizes_in, sumZ. cbn. lia.
      * intros [= <- H] Hne. rewrite sizes_in_cons.
        specialize (IH _ _ H Hne). lia.
    + intros H Hne. symmetry in H. apply app_eq_nil in H as [_ ?]. done.
Qed.

Lemma evicted_NoDup self env (d : Dir) : lists_dir env → NoDup (evicted self env d).
Proof.
  intros Hl. unfold evicted. destruct (_ <=? _); [constructor|].
  destruct (victims_prefix (max_local_bytes self) d (lru_order env d) (dir_size d))
    as [rest Hrest].
  pose proof (lru_order_NoDup env d Hl) as Hnd. rewrite Hrest in Hnd.
  by apply NoDup_app in Hnd as [? _].
Qed.

Lemma evicted_exist self env (d : Dir) n :
  lists_dir env → n ∈ evicted self env d → is_Some (d !! n).
Proof.
  intros Hl. unfold evicted. destruct (_ <=? _); [by intros ?%elem_of_nil|].
  intros Hn%victims_subseteq. by apply (elem_of_lru_order env).
Qed.

(** After a pass the directory is within the limit, or it is empty. *)
Lemma evicted_quota self env (d : Dir) :
  lists_dir env →
  dir_size (remove_all (evicted self env d) d) ≤ max_local_bytes self ∨
  remove_all (evicted self env d) d = ∅.
Proof.
  intros Hl.
  rewrite dir_size_remove_all
    by (by apply evicted_NoDup || (intros n; by apply evicted_exist)).
  unfold evicted. destruct (Z.leb_spec (dir_size d) (max_local_bytes self)) as [Hle|Hgt].
  { left. unfold sizes_in, sumZ. cbn. lia. }
  destruct (victims_stop (max_local_bytes self) d (lru_order env d) (dir_size d))
    as [->|Hle]; [right|by left].
  apply remove_all_keys. intros n. by apply elem_of_lru_order.
Qed.

Lemma lru_order_sorted env (d : Dir) :
  StronglySorted (lru_before env d) (lru_order env d).
Proof.
  unfold lru_order.
  set (ks := (λ n, (atime_in d n, n)) <$> glob env d).
  rewrite (sort_by_ext fst (atime_in d ∘ snd) ks); cycle 1.
  { intros [t n] (n' & [= -> ->] & _)%list_elem_of_fmap. done. }
  eapply StronglySorted_fmap; [|apply sort_by_stable].
  intros [t1 n1] [t2 n2] [Hlt|[Heq Hp]]; [by left|right]. split; [done|].
  apply (precedes_fmap snd) in Hp. unfold ks in Hp. by rewrite keyed_names in Hp.
Qed.

(** What is unlinked was accessed no later than what is kept, and, of two
    files accessed at the same time, the one [glob] listed first goes first. *)
Lemma evicted_lru self env (d : Dir) e s :
  lists_dir env →
  e ∈ evicted self env d → is_Some (d !! s) → s ∉ evicted self env d →
  lru_before env d e s.
Proof.
  intros Hl He Hs Hns. unfold evicted in *.
  destruct (_ <=? _); [by apply elem_of_nil in He|].
  destruct (victims_prefix (max_local_bytes self) d (lru_order env d) (dir_size d))
    as [rest Hrest].
  set (ev := victims _ _ _ _) in *.
  assert (Hsr : s ∈ rest).
  { apply (elem_of_lru_order env) in Hs; [|done]. rewrite Hrest in Hs.
    apply elem_of_app in Hs as [?|?]; done. }
  pose proof (lru_order_sorted env d) as Hst. rewrite Hrest in Hst.
  by eapply StronglySorted_app_1_elem_of.
Qed.

Lemma victims_within limit d files total :
  total ≤ limit → victims limit d files total = [].
Proof.
  intros H. destruct files as [|f files]; simpl; [done|].
  by destruct (Z.ltb_spec limit total); [lia|].
Qed.

(** The file accessed strictly before every other one is taken first. *)
Lemma lru_order_head env (d : Dir) a :
  lists_dir env → is_Some (d !! a) →
  (∀ n, n ≠ a → is_Some (d !! n) → atime_in d a < atime_in d n) →
  ∃ rest, lru_order env d = a :: rest.
Proof.
  intros Hl Ha Hold.
  pose proof (lru_order_sorted env d) as Hst.
  apply (elem_of_lru_order env) in Ha as Hin; [|done].
  destruct (lru_order env d) as [|x rest] eqn:E; [by apply elem_of_nil in Hin|].
  destruct (decide (x = a)) as [->|Hne]; [by exists rest|exfalso].
  apply elem_of_cons in Hin as [->|Hin]; [done|].
  apply StronglySorted_cons in Hst as [Hall _].
  rewrite Forall_forall in Hall. specialize (Hall a Hin).
  assert (atime_in d a < atime_in d x).
  { apply Hold; [done|]. apply (elem_of_lru_order env); [done|]. rewrite E. by left. }
  destruct Hall as [?|[? _]]; lia.
Qed.

(** One file is strictly the oldest, and without it the directory is within
    the limit: the pass unlinks that file, and only it. *)
Lemma evicted_oldest_only self env (d : Dir) a fa :
  lists_dir env → d !! a = Some fa →
  (∀ n, n ≠ a → is_Some (d !! n) → atime_in d a < atime_in d n) →
  max_local_bytes self < dir_size d →
  dir_size d - st_size fa ≤ max_local_bytes self →
  evicted self env d = [a].
Proof.
  intros Hl Ha Hold Hover Hfit. unfold evicted.
  destruct (Z.leb_spec (dir_size d) (max_local_bytes self)); [lia|].
  destruct (lru_order_head env d a) as [rest ->]; [done|by rewrite Ha|done|].
  simpl. destruct (Z.ltb_spec (max_local_bytes self) (dir_size d)); [|lia].
  f_equal. apply victims_within. unfold size_in. rewrite Ha. simpl. lia.
Qed.

(** ** The branches of [get_db_path] *)

Lemma s3_tier_hit self env state data w :
  s3_object self env state = Some data →
  s3_tier self env state w =
    (Ok true, put_file state data
                (add_call (S3Download (bucket_name self) (s3_key self state)) w)).
Proof.
  unfold s3_object, s3_tier, _download_from_s3, s3.
  destruct (truthy (s3_bucket self)); [|done]. simpl.
  destruct (download_file env _ _); by intros [= ->].
Qed.

(** Without a hit the S3 tier answers [False], whatever went wrong, and
    changes no file but, possibly, the one at the local path. *)
Lemma s3_tier_miss self env state w :
  s3_object self env state = None →
  ∃ w', s3_tier self env state w = (Ok false, w') ∧
        calls w' = calls w ++ s3_download_calls self state ∧
        clock w' = clock w ∧
        (∀ n, n ≠ state → local w' !! n = local w !! n) ∧
        (local w' = local w ∨
         ∃ part, download_file env (bucket_name self) (s3_key self state)
                   = S3Error (Some part) ∧
                 local w' = <[state := mkFile part (clock w) (clock w)]> (local w)).
Proof.
  unfold s3_object, s3_tier, s3_download_calls, _download_from_s3, s3.
  destruct (truthy (s3_bucket self)); simpl.
  - destruct (download_file env _ _) as [data| |[part|]]; [done| | |]; intros _;
      eexists; (split; [reflexivity|]); simpl; repeat split; auto.
    + intros n Hn. by rewrite lookup_insert_ne.
    + right. by exists part.
  - intros _. exists w. rewrite app_nil_r. repeat split; auto.
Qed.

Lemma get_db_path_unfold self env state w :
  get_db_path self env state w =
  let k := upper state in
  match local w !! k with
  | Some f => (Ok (local_path self k), put_file k (content f) (add_log (LogLocalHit k) w))
  | None => miss_branch self env k w
  end.
Proof.
  unfold get_db_path. cbv zeta. unfold bind at 1. unfold path_exists.
  destruct (local w !! upper state) as [f|] eqn:Hf.
  - rewrite bool_decide_eq_true_2 by eauto.
    unfold bind, log, _touch, touch. simpl. by rewrite Hf.
  - rewrite bool_decide_eq_false_2 by (by intros [? ?]). done.
Qed.

Lemma miss_branch_unfold self env k w :
  miss_branch self env k w =
  match s3_tier self env k w with
  | (Ok true, w1) =>
      match _enforce_cache_limit self env (add_log (LogS3Hit k) w1) with
      | (Ok _, w2) => (Ok (local_path self k), w2)
      | (Raise e, w2) => (Raise e, w2)
      end
  | (Ok false, w1) =>
      match _download_from_fia self env k (add_log (LogMiss k) w1) with
      | (Ok _, w2) =>
          match _enforce_cache_limit self env w2 with
          | (Ok _, w3) =>
              (Ok (local_path self k),
               if truthy (s3_bucket self) then snd (_upload_to_s3 self env k w3) else w3)
          | (Raise e, w3) => (Raise e, w3)
          end
      | (Raise e, w2) => (Raise e, w2)
      end
  | (Raise e, w1) => (Raise e, w1)
  end.
Proof.
  unfold miss_branch.
  unfold bind at 1. fold (s3_tier self env k).
  destruct (s3_tier self env k w) as [[[|]|e] w1]; [| |done].
  - unfold bind at 1. unfold log at 1. unfold bind at 1.
    destruct (_enforce_cache_limit self env _) as [[[]|e] w2]; done.
  - unfold bind at 1. unfold log at 1. unfold bind at 1.
    destruct (_download_from_fia self env _ _) as [[[]|e] w2]; [|done].
    unfold bind at 1.
    destruct (_enforce_cache_limit self env _) as [[[]|e] w3]; [|done].
    unfold bind at 1.
    destruct (truthy (s3_bucket self)); [|done].
    unfold bind at 1.
    destruct (_upload_to_s3 self env _ w3) as [[b|e] w4] eqn:Hup; [done|].
    exfalso. revert Hup. unfold _upload_to_s3.
    destruct (negb (s3 self)); [done|]. unfold bind at 1. unfold call.
    destruct (upload_file env _ _ _); done.
Qed.

Lemma _upload_to_s3_frame self env state w :
  ∃ b w', _upload_to_s3 self env state w = (Ok b, w') ∧
          local w' = local w ∧ clock w' = clock w ∧
          calls w' = calls w ++ s3_upload_calls self state.
Proof.
  unfold _upload_to_s3, s3_upload_calls, s3.
  destruct (truthy (s3_bucket self)); simpl.
  - unfold bind at 1. unfold call.
    destruct (upload_file env _ _ _); eexists _, _; (split; [reflexivity|done]).
  - exists false, w. by rewrite app_nil_r.
Qed.

Lemma _download_from_fia_ok self env state data w :
  download env state = Some data →
  _download_from_fia self env state w =
    (Ok tt, put_file state data (add_call (FIADownload state) w)).
Proof. intros H. unfold _download_from_fia, bind, call. by rewrite H. Qed.

Lemma _download_from_fia_fail self env state w :
  download env state = None →
  _download_from_fia self env state w =
    (Raise (DownloadError state), add_call (FIADownload state) w).
Proof. intros H. unfold _download_from_fia, bind, call. by rewrite H. Qed.

Lemma lists_dir_listing dl up dn : lists_dir (mkEnv listing dl up dn).
Proof. intros d. done. Qed.

Lemma lists_dir_listing_rev dl up dn : lists_dir (mkEnv listing_rev dl up dn).
Proof. intros d. simpl. unfold listing_rev. by rewrite reverse_Permutation. Qed.

Lemma get_db_path_miss_quota self env state w p w' :
  lists_dir env →
  local w !! upper state = None →
  get_db_path self env state w = (Ok p, w') →
  dir_size (local w') ≤ max_local_bytes self ∨ local w' = ∅.
Proof.
  intros Hl Hmiss. rewrite get_db_path_unfold. cbv zeta. rewrite Hmiss, miss_branch_unfold.
  destruct (s3_tier self env (upper state) w) as [[[|]|e] w1]; [| |done].
  - rewrite _enforce_cache_limit_eq by done. intros [= _ <-]. simpl.
    by apply evicted_quota.
  - destruct (_download_from_fia self env _ _) as [[[]|e] w2]; [|done].
    rewrite _enforce_cache_limit_eq by done. intros [= _ <-].
    assert (Hloc : local (if truthy (s3_bucket self)
                          then snd (_upload_to_s3 self env (upper state)
                                      (after_eviction (evicted self env (local w2)) w2))
                          else after_eviction (evicted self env (local w2)) w2)
                   = remove_all (evicted self env (local w2)) (local w2)).
    { destruct (truthy (s3_bucket self)); [|done].
      destruct (_upload_to_s3_frame self env (upper state)
                  (after_eviction (evicted self env (local w2)) w2))
        as (b & w3 & Hup & Hloc3 & _).
      rewrite Hup. simpl. by rewrite Hloc3. }
    rewrite Hloc. by apply evicted_quota.
Qed.

Lemma miss_branch_ok_path self env k w p w' :
  miss_branch self env k w = (Ok p, w') → p = local_path self k.
Proof.
  rewrite miss_branch_unfold.
  destruct (s3_tier _ _ _ _) as [[[|]|e] w1]; [| |done].
  - destruct (_enforce_cache_limit _ _ _) as [[[]|e] w2]; [|done]. by intros [= <- _].
  - destruct (_download_from_fia _ _ _ _) as [[[]|e] w2]; [|done].
    destruct (_enforce_cache_limit _ _ _) as [[[]|e] w3]; [|done]. by intros [= <- _].
Qed.

Lemma get_db_path_ok_path self env state w p w' :
  get_db_path self env state w = (Ok p, w') → p = local_path self (upper state).
Proof.
  rewrite get_db_path_unfold. cbv zeta.
  destruct (local w !! upper state); [by intros [= <- _]|].
  apply miss_branch_ok_path.
Qed.

Lemma get_db_path_hit self env state w f :
  local w !! upper state = Some f →
  get_db_path self env state w =
    (Ok (local_path self (upper state)),
     put_file (upper state) (content f) (add_log (LogLocalHit (upper state)) w)).
Proof. intros Hf. rewrite get_db_path_unfold. cbv zeta. by rewrite Hf. Qed.

Lemma get_db_path_s3_hit self env state w data :
  lists_dir env →
  local w !! upper state = None →
  s3_object self env (upper state) = Some data →
  ∃ w', get_db_path self env state w = (Ok (local_path self (upper state)), w') ∧
        calls w' = calls w ++ [S3Download (bucket_name self) (s3_key self (upper state))] ∧
        clock w' = clock w ∧
        local w' = remove_all (evicted self env (populated state data w))
                              (populated state data w).
Proof.
  intros Hl Hmiss Hobj. eexists.
  rewrite get_db_path_unfold. cbv zeta. rewrite Hmiss, miss_branch_unfold.
  rewrite (s3_tier_hit _ _ _ data) by done.
  rewrite _enforce_cache_limit_eq by done. done.
Qed.

(** The DataMart branch, from whatever directory it starts in. *)
Lemma miss_branch_origin self env k w data :
  lists_dir env →
  s3_object self env k = None →
  download env k = Some data →
  ∃ w', miss_branch self env k w = (Ok (local_path self k), w') ∧
        calls w' = calls w ++ s3_download_calls self k ++ [FIADownload k]
                     ++ s3_upload_calls self k ∧
        clock w' = clock w ∧
        local w' = remove_all
                     (evicted self env (<[k := mkFile data (clock w) (clock w)]> (local w)))
                     (<[k := mkFile data (clock w) (clock w)]> (local w)).
Proof.
  intros Hl Hobj Hdl. rewrite miss_branch_unfold.
  destruct (s3_tier_miss self env k w Hobj)
    as (w1 & -> & Hcalls & Hclock & Hother & Hloc).
  rewrite (_download_from_fia_ok _ _ _ data) by done.
  rewrite _enforce_cache_limit_eq by done.
  set (d1 := <[k := mkFile data (clock w) (clock w)]> (local w)).
  set (w2 := put_file _ _ _).
  assert (Hd : local w2 = d1).
  { unfold w2, d1. simpl. rewrite Hclock.
    destruct Hloc as [->|(part & _ & ->)]; [done|]. by rewrite insert_insert_eq. }
  set (w3 := after_eviction _ w2).
  assert (Hw3 : calls w3 = calls w ++ s3_download_calls self k ++ [FIADownload k]
                ∧ clock w3 = clock w
                ∧ local w3 = remove_all (evicted self env d1) d1).
  { unfold w3, after_eviction. cbn [calls clock local]. rewrite Hd.
    split_and!; [|by rewrite <-Hclock|done].
    unfold w2. simpl. by rewrite Hcalls, <-app_assoc. }
  destruct Hw3 as (Hc3 & Ht3 & Hl3).
  unfold s3_upload_calls.
  destruct (truthy (s3_bucket self)) eqn:Hs3.
  - destruct (_upload_to_s3_frame self env k w3)
      as (b & w4 & Hup & Hl4 & Ht4 & Hc4).
    exists w4. rewrite Hup. simpl. split; [done|].
    unfold s3_upload_calls in Hc4. rewrite Hs3 in Hc4.
    rewrite Hc4, Hc3, Hl4, Ht4, <-!app_assoc. done.
  - exists w3. rewrite app_nil_r. done.
Qed.

Lemma get_db_path_origin self env state w data :
  lists_dir env →
  local w !! upper state = None →
  s3_object self env (upper state) = None →
  download env (upper state) = Some data →
  ∃ w', get_db_path self env state w = (Ok (local_path self (upper state)), w') ∧
        calls w' = calls w ++ s3_download_calls self (upper state)
                     ++ [FIADownload (upper state)]
                     ++ s3_upload_calls self (upper state) ∧
        clock w' = clock w ∧
        local w' = remove_all (evicted self env (populated state data w))
                              (populated state data w).
Proof.
  intros Hl Hmiss Hobj Hdl.
  rewrite get_db_path_unfold. cbv zeta. rewrite Hmiss.
  by apply miss_branch_origin.
Qed.

Lemma get_db_path_origin_fail self env state w :
  local w !! upper state = None →
  s3_object self env (upper state) = None →
  download env (upper state) = None →
  ∃ w', get_db_path self env state w = (Raise (DownloadError (upper state)), w') ∧
        calls w' = calls w ++ s3_download_calls self (upper state)
                     ++ [FIADownload (upper state)] ∧
        (∀ n, n ≠ upper state → local w' !! n = local w !! n) ∧
        (local w' = local w ∨
         ∃ part, download_file env (bucket_name self) (s3_key self (upper state))
                   = S3Error (Some part) ∧
                 local w' = populated state part w).
Proof.
  intros Hmiss Hobj Hdl.
  rewrite get_db_path_unfold. cbv zeta. rewrite Hmiss, miss_branch_unfold.
  destruct (s3_tier_miss self env (upper state) w Hobj)
    as (w1 & -> & Hcalls & Hclock & Hother & Hloc).
  rewrite _download_from_fia_fail by done.
  eexists. split; [done|]. simpl. rewrite Hcalls, <-app_assoc. done.
Qed.

(** A file that is in the directory is served from it, whatever the clock
    and the collaborators. *)
Lemma get_db_path_again self env state w t :
  is_Some (local w !! upper state) →
  ∃ w', get_db_path self env state (set_clock t w)
          = (Ok (local_path self (upper state)), w') ∧
        calls w' = calls w.
Proof.
  intros [f Hf]. eexists. by rewrite (get_db_path_hit _ _ _ _ f).
Qed.

Lemma evicted_within self env (d : Dir) :
  dir_size d ≤ max_local_bytes self → evicted self env d = [].
Proof.
  intros H. unfold evicted. by destruct (Z.leb_spec (dir_size d) (max_local_bytes self)); [|lia].
Qed.

(** A miss and a successful fetch: the call returns, and what it leaves is
    the populated directory after one eviction pass. *)
Lemma get_db_path_populate self env state w data :
  lists_dir env →
  local w !! upper state = None →
  fetched self env (upper state) = Some data →
  ∃ w', get_db_path self env state w = (Ok (local_path self (upper state)), w') ∧
        (∃ c cs, calls w' = calls w ++ c :: cs) ∧
        local w' = remove_all (evicted self env (populated state data w))
                              (populated state data w).
Proof.
  intros Hl Hmiss. unfold fetched.
  destruct (s3_object self env (upper state)) as [obj|] eqn:Hobj.
  - intros [= ->].
    destruct (get_db_path_s3_hit self env state w data) as (w' & -> & Hc & _ & Hd);
      try done.
    exists w'. split; [done|]. split; [|done]. by eexists _, [].
  - intros Hdl.
    destruct (get_db_path_origin self env state w data) as (w' & -> & Hc & _ & Hd);
      try done.
    exists w'. split; [done|]. split; [|done]. rewrite Hc.
    destruct (s3_download_calls self (upper state)) as [|c cs]; simpl; by eexists _, _.
Qed.

(** With such a client a call that raises leaves the directory as it was,
    and a file that a call puts in place is whole: the S3 object or the
    DataMart's artifact. *)
Lemma get_db_path_failure_unchanged self env state w e w' :
  client_atomic env →
  local w !! upper state = None →
  get_db_path self env state w = (Raise e, w') →
  lists_dir env →
  local w' = local w.
Proof.
  intros Hatomic Hmiss Hget Hl.
  destruct (fetched self env (upper state)) as [data|] eqn:Hfetch.
  - destruct (get_db_path_populate self env state w data) as (w2 & Hget2 & _);
      try done. by rewrite Hget2 in Hget.
  - unfold fetched in Hfetch.
    destruct (s3_object self env (upper state)) eqn:Hobj; [done|].
    destruct (get_db_path_origin_fail self env state w) as (w2 & Hget2 & _ & _ & Hloc);
      try done.
    rewrite Hget2 in Hget. injection Hget as _ <-.
    destruct Hloc as [?|(part & Hpart & _)]; [done|]. by destruct (Hatomic _ _ _ Hpart).
Qed.

(** The pass that follows the write of an artifact larger than the limit
    unlinks that artifact: the call returns a path at which there is no
    file. *)
Lemma get_db_path_oversized self env state w data :
  lists_dir env →
  local w !! upper state = None →
  fetched self env (upper state) = Some data →
  max_local_bytes self < Z.of_nat (length data) →
  ∃ w', get_db_path self env state w = (Ok (local_path self (upper state)), w') ∧
        local w' !! upper state = None.
Proof.
  intros Hl Hmiss Hfetch Hbig.
  destruct (get_db_path_populate self env state w data) as (w' & Hget & _ & Hloc);
    try done.
  exists w'. split; [done|].
  destruct (local w' !! upper state) as [f|] eqn:Hf; [exfalso|done].
  pose proof (dir_size_lookup_le _ _ _ Hf) as Hle.
  assert (f = mkFile data (clock w) (clock w)) as ->.
  { rewrite Hloc, lookup_remove_all in Hf. destruct (decide _); [done|].
    unfold populated in Hf. rewrite lookup_insert_eq in Hf. by injection Hf. }
  destruct (evicted_quota self env (populated state data w) Hl) as [Hq|Hq];
    rewrite <-Hloc in Hq.
  - unfold st_size in Hle. simpl in Hle. lia.
  - rewrite Hq in Hf. by rewrite lookup_empty in Hf.
Qed.

(** ** Callers that overlap *)

Lemma count_calls_app p cs1 cs2 :
  count_calls p (cs1 ++ cs2) = (count_calls p cs1 + count_calls p cs2)%nat.
Proof. induction cs1 as [|c cs1 IH]; simpl; [done|]. rewrite IH. lia. Qed.

(** A caller on its own is [get_db_path]. *)
Lemma run_alone self env state w :
  run self env state [0%nat; 0%nat] [Entering] w =
    ([Returned (fst (get_db_path self env state w))],
     snd (get_db_path self env state w)).
Proof.
  pose proof (get_db_path_unfold self env state w) as Hu. cbv zeta in Hu.
  simpl. destruct (local w !! upper state) as [f|] eqn:Hf.
  - by destruct (get_db_path self env state w) as [r w'].
  - rewrite Hu. simpl. by destruct (miss_branch self env (upper state) w) as [r w'].
Qed.

Lemma run_app self env state s1 s2 pool w :
  run self env state (s1 ++ s2) pool w =
    run self env state s2 (run self env state s1 pool w).1
                          (run self env state s1 pool w).2.
Proof.
  revert pool w. induction s1 as [|i s1 IH]; intros pool w; simpl; [done|].
  destruct (pool !! i) as [c|]; [|apply IH].
  destruct (step self env state c w) as [c' w']. apply IH.
Qed.

(** Every caller tests an empty slot of the directory: all have seen the
    miss, and nothing has changed. *)
Lemma run_all_test self env state w done_ n :
  local w !! upper state = None →
  run self env state (seq (length done_) n) (done_ ++ replicate n Entering) w =
    (done_ ++ replicate n SawMiss, w).
Proof.
  intros Hmiss. revert done_. induction n as [|n IH]; intros done_; simpl; [done|].
  rewrite list_lookup_middle by done. simpl. rewrite Hmiss.
  replace (<[length done_ := SawMiss]> (done_ ++ Entering :: replicate n Entering))
    with ((done_ ++ [SawMiss]) ++ replicate n Entering).
  - replace (S (length done_)) with (length (done_ ++ [SawMiss]))
      by (rewrite length_app; simpl; lia).
    rewrite IH. by rewrite <-app_assoc.
  - rewrite <-app_assoc. simpl.
    by rewrite (insert_app_r_alt _ _ (length done_)), Nat.sub_diag by lia.
Qed.

Lemma origin_fetches_app state cs1 cs2 :
  origin_fetches state (cs1 ++ cs2) =
    (origin_fetches state cs1 + origin_fetches state cs2)%nat.
Proof. apply count_calls_app. Qed.

Lemma remote_lookups_app cs1 cs2 :
  remote_lookups (cs1 ++ cs2) = (remote_lookups cs1 + remote_lookups cs2)%nat.
Proof. apply count_calls_app. Qed.

Lemma origin_fetches_miss_branch self state :
  origin_fetches state
    (s3_download_calls self state ++ [FIADownload state] ++ s3_upload_calls self state)
  = 1%nat.
Proof.
  unfold s3_download_calls, s3_upload_calls, origin_fetches.
  destruct (truthy (s3_bucket self)); simpl; by rewrite bool_decide_eq_true_2.
Qed.

Lemma remote_lookups_miss_branch self state :
  remote_lookups
    (s3_download_calls self state ++ [FIADownload state] ++ s3_upload_calls self state)
  = if truthy (s3_bucket self) then 1%nat else 0%nat.
Proof.
  unfold s3_download_calls, s3_upload_calls, remote_lookups.
  by destruct (truthy (s3_bucket self)).
Qed.

(** Callers that have seen the miss each go through the tiers, one after
    the other, whatever the callers before them have put in the directory. *)
Lemma run_all_fetch self env state data w done_ n :
  lists_dir env →
  s3_object self env (upper state) = None →
  download env (upper state) = Some data →
  ∃ w', run self env state (seq (length done_) n) (done_ ++ replicate n SawMiss) w =
          (done_ ++ replicate n (Returned (Ok (local_path self (upper state)))), w') ∧
        origin_fetches (upper state) (calls w') =
          (origin_fetches (upper state) (calls w) + n)%nat ∧
        remote_lookups (calls w') =
          (remote_lookups (calls w) + if truthy (s3_bucket self) then n else 0)%nat.
Proof.
  intros Hl Hobj Hdl. revert done_ w.
  induction n as [|n IH]; intros done_ w; simpl.
  { exists w. split; [done|]. destruct (truthy _); split; lia. }
  rewrite list_lookup_middle by done. simpl.
  destruct (miss_branch_origin self env (upper state) w data) as (w1 & -> & Hc & _);
    try done.
  set (r := Returned (Ok (local_path self (upper state)))).
  replace (<[length done_ := r]> (done_ ++ SawMiss :: replicate n SawMiss))
    with ((done_ ++ [r]) ++ replicate n SawMiss); cycle 1.
  { rewrite <-app_assoc. simpl.
    by rewrite (insert_app_r_alt _ _ (length done_)), Nat.sub_diag by lia. }
  replace (S (length done_)) with (length (done_ ++ [r]))
    by (rewrite length_app; simpl; lia).
  destruct (IH (done_ ++ [r]) w1) as (w' & -> & Hfetch & Hlookup).
  exists w'. split; [by rewrite <-app_assoc|].
  rewrite Hfetch, Hlookup, Hc, origin_fetches_app, remote_lookups_app,
    origin_fetches_miss_branch, remote_lookups_miss_branch.
  destruct (truthy (s3_bucket self)); split; lia.
Qed.

Lemma step_path self env state c w c' w' p :
  step self env state c w = (c', w') →
  (c = Returned (Ok p) → p = local_path self (upper state)) →
  c' = Returned (Ok p) → p = local_path self (upper state).
Proof.
  destruct c as [| |r]; simpl.
  - destruct (local w !! upper state).
    + destruct (get_db_path self env state w) as [r w1] eqn:Hget.
      intros [= <- <-] _ [= ->]. by eapply get_db_path_ok_path.
    + by intros [= <- <-].
  - destruct (miss_branch self env (upper state) w) as [r w1] eqn:Hget.
    intros [= <- <-] _ [= ->]. by eapply miss_branch_ok_path.
  - intros [= <- <-] H Hr. by apply H.
Qed.

Lemma run_paths self env state schedule pool w p :
  Forall (λ c, c = Returned (Ok p) → p = local_path self (upper state)) pool →
  Forall (λ c, c = Returned (Ok p) → p = local_path self (upper state))
         (run self env state schedule pool w).1.
Proof.
  revert pool w. induction schedule as [|i schedule IH]; intros pool w Hall; [done|].
  simpl. destruct (pool !! i) as [c|] eqn:Hc; [|by apply IH].
  destruct (step self env state c w) as [c' w'] eqn:Hstep.
  apply IH. apply Forall_insert; [done|].
  eapply step_path; [done|]. by eapply (Forall_lookup_1 _ _ _ _ Hall).
Qed.

(** The three outcomes of a call that misses locally, with the directory
    each leaves. *)
Lemma get_db_path_miss_cases self env state w :
  lists_dir env →
  local w !! upper state = None →
  (∃ data w', fetched self env (upper state) = Some data ∧
     get_db_path self env state w = (Ok (local_path self (upper state)), w') ∧
     local w' = remove_all (evicted self env (populated state data w))
                           (populated state data w)) ∨
  (∃ w', fetched self env (upper state) = None ∧
     get_db_path self env state w = (Raise (DownloadError (upper state)), w') ∧
     (∀ n, n ≠ upper state → local w' !! n = local w !! n)).
Proof.
  intros Hl Hmiss. destruct (fetched self env (upper state)) as [data|] eqn:Hfetch.
  - left. destruct (get_db_path_populate self env state w data) as (w' & ? & _ & ?);
      try done. by exists data, w'.
  - right. unfold fetched in Hfetch.
    destruct (s3_object self env (upper state)) eqn:Hobj; [done|].
    destruct (get_db_path_origin_fail self env state w) as (w' & ? & _ & ? & _);
      try done. by exists w'.
Qed.

(** Files of other keys are not created or altered by a call. *)
Lemma get_db_path_other_files_aux self env state w r w' :
  lists_dir env →
  get_db_path self env state w = (r, w') →
  ∀ n f, n ≠ upper state → local w' !! n = Some f → local w !! n = Some f.
Proof.
  intros Hl Hget n f Hn.
  destruct (local w !! upper state) as [f0|] eqn:Hk.
  - rewrite (get_db_path_hit _ _ _ _ f0) in Hget by done. injection Hget as _ <-.
    simpl. by rewrite lookup_insert_ne.
  - destruct (get_db_path_miss_cases self env state w Hl Hk)
      as [(data & w2 & _ & Hget2 & Hloc)|(w2 & _ & Hget2 & Hother)];
      rewrite Hget2 in Hget; injection Hget as _ <-.
    + rewrite Hloc, lookup_remove_all. destruct (decide _); [done|].
      unfold populated. by rewrite lookup_insert_ne.
    + by rewrite Hother.
Qed.




(** * The claims *)

(** C1, as the code has it. The tiers are consulted in the order Local, S3
    (when a bucket is configured), DataMart, and the first hit ends the
    search: a Local hit makes no network call; on a Local miss an S3 hit
    writes the file, runs the eviction pass and returns the local path after
    the one S3 download, with no call to the DataMart; otherwise the DataMart
    is called, and when its download succeeds the file is written, the pass
    run, the upload to S3 attempted (its failure changes nothing) and the
    local path returned, while a failed download raises, with no upload.
    Whenever a call returned a path and the file is in the directory when it
    returns, a following call for the same key returns the same path and
    makes no network call, at any later time and whatever the collaborators
    do. *)
Theorem get_db_path_tier_order self env state w :
  lists_dir env →
  let k := upper state in
  let p := local_path self k in
  (∀ f, local w !! k = Some f →
     ∃ w', get_db_path self env state w = (Ok p, w') ∧ calls w' = calls w) ∧
  (∀ data, local w !! k = None → s3_object self env k = Some data →
     ∃ w', get_db_path self env state w = (Ok p, w') ∧
           calls w' = calls w ++ [S3Download (bucket_name self) (s3_key self k)] ∧
           local w' = remove_all (evicted self env (populated state data w))
                                 (populated state data w)) ∧
  (∀ data, local w !! k = None → s3_object self env k = None →
     download env k = Some data →
     ∃ w', get_db_path self env state w = (Ok p, w') ∧
           calls w' = calls w ++ s3_download_calls self k ++ [FIADownload k]
                        ++ s3_upload_calls self k ∧
           local w' = remove_all (evicted self env (populated state data w))
                                 (populated state data w)) ∧
  (local w !! k = None → s3_object self env k = None → download env k = None →
     ∃ w', get_db_path self env state w = (Raise (DownloadError k), w') ∧
           calls w' = calls w ++ s3_download_calls self k ++ [FIADownload k]) ∧
  (∀ p' w', get_db_path self env state w = (Ok p', w') →
     is_Some (local w' !! k) →
     ∀ env' t, ∃ w'', get_db_path self env' state (set_clock t w') = (Ok p', w'') ∧
                      calls w'' = calls w').
Proof.
  intros Hl k p. split_and!.
  - intros f Hf. eexists. by rewrite (get_db_path_hit _ _ _ _ f).
  - intros data Hmiss Hobj.
    destruct (get_db_path_s3_hit self env state w data) as (w' & ? & ? & _ & ?); eauto.
  - intros data Hmiss Hobj Hdl.
    destruct (get_db_path_origin self env state w data) as (w' & ? & ? & _ & ?); eauto.
  - intros Hmiss Hobj Hdl.
    destruct (get_db_path_origin_fail self env state w) as (w' & ? & ? & _); eauto.
  - intros p' w' Hget Hin env' t.
    apply get_db_path_ok_path in Hget as ->. by apply get_db_path_again.
Qed.

(** A cold cache, no bucket, a limit that the 10-byte file fits in: the
    DataMart is called once, and the second call is served locally. *)
Lemma get_db_path_tier_order_witness :
  let self := mkStorage "/data/fia" None "fia-duckdb" 25 in
  let env := simple_env listing ["NC"] (blob 10) in
  lists_dir env ∧
  ∃ w' w'',
    get_db_path self env "nc" empty_world = (Ok "/data/fia/NC.duckdb", w') ∧
    calls w' = [FIADownload "NC"] ∧
    get_db_path self env "nc" (set_clock 9 w') = (Ok "/data/fia/NC.duckdb", w'') ∧
    calls w'' = [FIADownload "NC"].
Proof.
  intros self env. split; [apply lists_dir_listing|].
  destruct (get_db_path_tier_order self env "nc" empty_world)
    as (_ & _ & Horigin & _ & Hagain); [apply lists_dir_listing|].
  destruct (Horigin (blob 10)) as (w' & Hget & Hcalls & Hloc); [by vm_compute..|].
  destruct (Hagain _ w' Hget) with (env' := env) (t := 9) as (w'' & Hget2 & Hcalls2).
  { rewrite Hloc. vm_compute. by eexists. }
  exists w', w''. split; [exact Hget|]. split; [exact Hcalls|].
  split; [exact Hget2|]. rewrite Hcalls2. exact Hcalls.
Defined.

(** C1 as stated fails, in two ways. (1) The DataMart has nothing for "ZZ":
    the Origin is called, no artifact is stored and no path is returned, the
    call raises; the next call for "ZZ" calls the DataMart again. (2) The
    10-byte artifact for "NC" is larger than the limit of 5 bytes: the call
    returns the local path, but its eviction pass has unlinked the file just
    written, and the next call for "NC" is not served from Local: it calls
    the DataMart again. *)
Lemma subsequent_resolve_not_always_local :
  let env := simple_env listing ["NC"] (blob 10) in
  (let self := mkStorage "/data/fia" None "fia-duckdb" 25 in
   let r1 := get_db_path self env "zz" empty_world in
   let r2 := get_db_path self env "zz" (set_clock 1 (snd r1)) in
   fst r1 = Raise (DownloadError "ZZ") ∧ local (snd r1) = ∅ ∧
   calls (snd r1) = [FIADownload "ZZ"] ∧
   calls (snd r2) = [FIADownload "ZZ"; FIADownload "ZZ"]) ∧
  (let self := mkStorage "/data/fia" None "fia-duckdb" 5 in
   let r1 := get_db_path self env "nc" empty_world in
   let r2 := get_db_path self env "nc" (set_clock 1 (snd r1)) in
   fst r1 = Ok "/data/fia/NC.duckdb" ∧ local (snd r1) = ∅ ∧
   calls (snd r1) = [FIADownload "NC"] ∧
   calls (snd r2) = [FIADownload "NC"; FIADownload "NC"]).
Proof. by vm_compute. Qed.



(** C3. After any sequence of population writes followed by a completed
    eviction pass, the sizes of the files in the local cache directory sum to
    at most [max_local_bytes], unless no file is left. The class pins
    nothing, so "every remaining entry is pinned" can only hold of an empty
    directory, which is over the limit only when the limit is negative. The
    total exceeds the limit after a population write only until the pass of
    the same call has run: every [get_db_path] that missed locally and
    returned leaves the directory within the limit, or empty. *)
Theorem enforce_cache_limit_quota self env puts w :
  lists_dir env →
  (∃ w', _enforce_cache_limit self env (put_all puts w) = (Ok tt, w') ∧
         (dir_size (local w') ≤ max_local_bytes self ∨ local w' = ∅) ∧
         (0 ≤ max_local_bytes self → dir_size (local w') ≤ max_local_bytes self)) ∧
  (∀ state p w',
     local w !! upper state = None →
     get_db_path self env state w = (Ok p, w') →
     dir_size (local w') ≤ max_local_bytes self ∨ local w' = ∅).
Proof.
  intros Hl. split.
  - eexists. split; [by apply _enforce_cache_limit_eq|]. simpl.
    pose proof (evicted_quota self env (local (put_all puts w)) Hl) as Hq.
    split; [done|]. intros Hmax. destruct Hq as [?| ->]; [done|].
    by rewrite dir_size_empty.
  - intros state p w' Hmiss Hget. by eapply get_db_path_miss_quota.
Qed.

Lemma enforce_cache_limit_quota_witness :
  let self := mkStorage "/data/fia" None "fia-duckdb" 25 in
  let env := simple_env listing [] [] in
  let puts := [("NC", blob 10); ("GA", blob 10); ("OR", blob 10)] in
  lists_dir env ∧
  dir_size (local (put_all puts empty_world)) = 30 ∧
  ∃ w', _enforce_cache_limit self env (put_all puts empty_world) = (Ok tt, w') ∧
        dir_size (local w') ≤ 25.
Proof.
  intros self env puts. split; [apply lists_dir_listing|]. split; [by vm_compute|].
  destruct (enforce_cache_limit_quota self env puts empty_world)
    as [(w' & Hrun & _ & Hle) _]; [apply lists_dir_listing|].
  exists w'. split; [exact Hrun|]. apply Hle. by vm_compute.
Defined.

(** C4 fails on the code. The limit is 5 bytes and the artifact for "NC" has
    10. The call downloads it, puts it in place, and the eviction pass of the
    same call unlinks it: the call returns the path, and the directory is
    empty. *)
Theorem oversized_artifact_is_evicted :
  let self := mkStorage "/data/fia" None "fia-duckdb" 5 in
  let env := simple_env listing ["NC"] (blob 10) in
  let r := get_db_path self env "nc" empty_world in
  fst r = Ok "/data/fia/NC.duckdb" ∧
  local (snd r) = ∅ ∧
  logs (snd r) = [LogMiss "NC"; LogEvicted "NC" 10].
Proof. by vm_compute. Qed.

(** C5, as the code has it. The directory is the only registry, and
    [local_path.exists()] is the only test. A key whose backing file is
    missing is a miss: the call goes to the slower tiers, makes at least one
    network call, and when a slower tier delivers the artifact it writes the
    file anew, runs the eviction pass and returns the path; when none does,
    it raises. A backing file that exists with zero bytes is a hit: the call
    returns its path without any network call and the file stays, empty. *)
Theorem get_db_path_missing_or_empty self env state w :
  lists_dir env →
  let k := upper state in
  (local w !! k = None →
     (∀ data, fetched self env k = Some data →
        ∃ w', get_db_path self env state w = (Ok (local_path self k), w') ∧
              (∃ c cs, calls w' = calls w ++ c :: cs) ∧
              local w' = remove_all (evicted self env (populated state data w))
                                    (populated state data w)) ∧
     (fetched self env k = None →
        ∃ w', get_db_path self env state w = (Raise (DownloadError k), w') ∧
              FIADownload k ∈ calls w')) ∧
  (∀ f, local w !! k = Some f → content f = [] →
     ∃ w', get_db_path self env state w = (Ok (local_path self k), w') ∧
           calls w' = calls w ∧
           local w' !! k = Some (mkFile [] (clock w) (clock w))).
Proof.
  intros Hl k. split.
  - intros Hmiss. split.
    + intros data Hfetch. by apply get_db_path_populate.
    + unfold fetched. destruct (s3_object self env k) eqn:Hobj; [done|]. intros Hdl.
      destruct (get_db_path_origin_fail self env state w) as (w' & ? & Hc & _); try done.
      exists w'. split; [done|]. rewrite Hc, !elem_of_app. right. right. by left.
  - intros f Hf Hempty. eexists. rewrite (get_db_path_hit _ _ _ _ f) by done.
    split; [done|]. simpl. by rewrite lookup_insert_eq, Hempty.
Qed.

Lemma get_db_path_missing_or_empty_witness :
  let self := mkStorage "/data/fia" None "fia-duckdb" 25 in
  let env := simple_env listing ["NC"] (blob 10) in
  lists_dir env ∧
  ∃ w', get_db_path self env "nc" empty_world = (Ok "/data/fia/NC.duckdb", w') ∧
        local w' !! "NC" = Some (mkFile (blob 10) 0 0).
Proof.
  intros self env. split; [apply lists_dir_listing|].
  destruct (get_db_path_missing_or_empty self env "nc" empty_world)
    as [Hmissing _]; [apply lists_dir_listing|].
  destruct Hmissing as [Hfetch _]; [by vm_compute|].
  destruct (Hfetch (blob 10)) as (w' & Hget & _ & Hloc); [by vm_compute|].
  exists w'. split; [exact Hget|]. rewrite Hloc. by vm_compute.
Defined.

(** C5 as stated fails for a zero-byte file. "NC.duckdb" exists and is
    empty; the bucket has the 10-byte object and the DataMart has the data.
    The call reports a hit: it returns the path, asks neither S3 nor the
    DataMart, and leaves the empty file in place. *)
Lemma zero_byte_file_is_a_hit :
  let self := mkStorage "/data/fia" (Some "fia-data") "fia-duckdb" 25 in
  let env := mkEnv listing (λ _ _, S3Object (blob 10)) (λ _ _ _, true)
                   (λ _, Some (blob 10)) in
  let w := mkWorld {[ "NC" := mkFile [] 1 1 ]} 7 [] [] in
  let r := get_db_path self env "nc" w in
  st_size (mkFile [] 1 1) = 0 ∧
  fst r = Ok "/data/fia/NC.duckdb" ∧
  calls (snd r) = [] ∧
  local (snd r) = {[ "NC" := mkFile [] 7 7 ]} ∧
  logs (snd r) = [LogLocalHit "NC"].
Proof. by vm_compute. Qed.

(** C6, as the code has it. [_download_from_s3] returns a boolean. "Object
    not found" and every other failure of the download are both returned as
    [False]; a failure other than [NoSuchKey] is logged as a warning (and may
    leave what the client wrote at the local path), and that is the whole
    difference. The resolver cannot tell them apart: in both cases it goes on
    to the DataMart. *)
Theorem s3_failures_return_false self env state w :
  s3 self = true →
  lists_dir env →
  let outcome := download_file env (bucket_name self) (s3_key self state) in
  let w1 := add_call (S3Download (bucket_name self) (s3_key self state)) w in
  (outcome = NoSuchKey → _download_from_s3 self env state w = (Ok false, w1)) ∧
  (outcome = S3Error None →
     _download_from_s3 self env state w
       = (Ok false, add_log (LogS3DownloadFailed state) w1)) ∧
  (∀ part, outcome = S3Error (Some part) →
     _download_from_s3 self env state w
       = (Ok false, add_log (LogS3DownloadFailed state) (put_file state part w1))) ∧
  (local w !! upper state = None → s3_object self env (upper state) = None →
     FIADownload (upper state) ∈ calls (snd (get_db_path self env state w))).
Proof.
  intros Hs3 Hl outcome w1. unfold _download_from_s3. rewrite Hs3. simpl.
  fold outcome. split_and!.
  - by intros ->.
  - by intros ->.
  - by intros part ->.
  - intros Hmiss Hobj.
    destruct (download env (upper state)) as [data|] eqn:Hdl.
    + destruct (get_db_path_origin self env state w data) as (w' & -> & Hc & _);
        try done.
      simpl. rewrite Hc, !elem_of_app. right. right. left. by left.
    + destruct (get_db_path_origin_fail self env state w) as (w' & -> & Hc & _);
        try done.
      simpl. rewrite Hc, !elem_of_app. right. right. by left.
Qed.

(** The bucket is down (a timeout that leaves nothing behind): the download
    answers [False], a warning is logged, and the DataMart is called. *)
Lemma s3_failures_return_false_witness :
  let self := mkStorage "/data/fia" (Some "fia-data") "fia-duckdb" 25 in
  let env := mkEnv listing (λ _ _, S3Error None) (λ _ _ _, false) (λ _, Some (blob 10)) in
  s3 self = true ∧ lists_dir env ∧
  _download_from_s3 self env "NC" empty_world
    = (Ok false, mkWorld ∅ 0 [S3Download "fia-data" "fia-duckdb/NC.duckdb"]
                         [LogS3DownloadFailed "NC"]) ∧
  FIADownload "NC" ∈ calls (snd (get_db_path self env "nc" empty_world)).
Proof.
  intros self env. split; [done|]. split; [apply lists_dir_listing|].
  destruct (s3_failures_return_false self env "NC" empty_world)
    as (_ & Herr & _ & Horigin); [done|apply lists_dir_listing|].
  split; [by apply Herr|]. apply Horigin; by vm_compute.
Defined.

(** C6 as stated fails: the two outcomes are returned as the same value. The
    bucket has no object for "NC" in the first run and cannot be reached in
    the second; [_download_from_s3] returns [False] both times, and
    [get_db_path] makes the same calls and returns the same path. *)
Lemma s3_not_found_and_transport_error_collapse :
  let self := mkStorage "/data/fia" (Some "fia-data") "fia-duckdb" 25 in
  let not_found := mkEnv listing (λ _ _, NoSuchKey) (λ _ _ _, true) (λ _, Some (blob 10)) in
  let unreachable :=
    mkEnv listing (λ _ _, S3Error None) (λ _ _ _, true) (λ _, Some (blob 10)) in
  fst (_download_from_s3 self not_found "NC" empty_world) = Ok false ∧
  fst (_download_from_s3 self unreachable "NC" empty_world) = Ok false ∧
  fst (get_db_path self not_found "nc" empty_world)
    = fst (get_db_path self unreachable "nc" empty_world) ∧
  calls (snd (get_db_path self not_found "nc" empty_world))
    = calls (snd (get_db_path self unreachable "nc" empty_world)).
Proof. by vm_compute. Qed.

(** C7, as the code has it. When the first [get_db_path] for a key returns a
    path and the file is in the directory when it returns, a second call for
    the key returns the same path and makes no network call. The file is
    there when it was there before the first call, and after a population
    whenever the directory with the new file in it is within the limit. *)
Theorem get_db_path_twice self env env' state w t p w' :
  lists_dir env →
  get_db_path self env state w = (Ok p, w') →
  (is_Some (local w' !! upper state) →
   ∃ w'', get_db_path self env' state (set_clock t w') = (Ok p, w'') ∧
          calls w'' = calls w') ∧
  (is_Some (local w !! upper state) → is_Some (local w' !! upper state)) ∧
  (∀ data, local w !! upper state = None →
           fetched self env (upper state) = Some data →
           dir_size (populated state data w) ≤ max_local_bytes self →
           is_Some (local w' !! upper state)).
Proof.
  intros Hl Hget. split_and!.
  - intros Hin. apply get_db_path_ok_path in Hget as ->. by apply get_db_path_again.
  - intros [f Hf]. rewrite (get_db_path_hit _ _ _ _ f) in Hget by done.
    injection Hget as _ <-. simpl. rewrite lookup_insert_eq. by eexists.
  - intros data Hmiss Hfetch Hfit.
    destruct (get_db_path_populate self env state w data) as (w2 & Hget2 & _ & Hloc);
      try done.
    rewrite Hget2 in Hget. injection Hget as _ <-.
    rewrite Hloc, evicted_within by done. simpl. unfold populated.
    rewrite lookup_insert_eq. by eexists.
Qed.

Lemma get_db_path_twice_witness :
  let self := mkStorage "/data/fia" None "fia-duckdb" 25 in
  let env := simple_env listing ["NC"] (blob 10) in
  let r1 := get_db_path self env "nc" empty_world in
  lists_dir env ∧
  r1 = (Ok "/data/fia/NC.duckdb", snd r1) ∧
  ∃ w'', get_db_path self env "nc" (set_clock 9 (snd r1)) = (Ok "/data/fia/NC.duckdb", w'') ∧
         calls w'' = calls (snd r1).
Proof.
  intros self env r1. split; [apply lists_dir_listing|]. split; [by vm_compute|].
  destruct (get_db_path_twice self env env "nc" empty_world 9
              "/data/fia/NC.duckdb" (snd r1)) as (Htwice & _ & Hfit);
    [apply lists_dir_listing|by vm_compute|].
  apply Htwice. apply (Hfit (blob 10)); by vm_compute.
Defined.

(** C7 as stated fails, in two ways. (1) For a key the DataMart has nothing
    for, the first call returns no path, and the second call goes to the
    network again. (2) For an artifact larger than the limit, the first call
    returns the path, its eviction pass unlinks the file just written, and the
    second call, which returns the same path, downloads from the DataMart
    again. *)
Lemma second_resolve_may_use_network :
  let env := simple_env listing ["NC"] (blob 10) in
  (let self := mkStorage "/data/fia" None "fia-duckdb" 25 in
   let r1 := get_db_path self env "zz" empty_world in
   let r2 := get_db_path self env "zz" (set_clock 1 (snd r1)) in
   fst r1 = Raise (DownloadError "ZZ") ∧ fst r2 = Raise (DownloadError "ZZ") ∧
   calls (snd r2) = calls (snd r1) ++ [FIADownload "ZZ"]) ∧
  (let self := mkStorage "/data/fia" None "fia-duckdb" 5 in
   let r1 := get_db_path self env "nc" empty_world in
   let r2 := get_db_path self env "nc" (set_clock 1 (snd r1)) in
   fst r1 = Ok "/data/fia/NC.duckdb" ∧ fst r2 = Ok "/data/fia/NC.duckdb" ∧
   calls (snd r2) = calls (snd r1) ++ [FIADownload "NC"]).
Proof. by vm_compute. Qed.

(** C8, as the code has it. An eviction pass unlinks files in the order of
    their access times, oldest first, and among files with equal access
    times in the order in which [glob] listed the directory (the sort is
    stable): the files unlinked, in the order of their unlinking, stand in
    that order, and every one of them stands before every file kept. The
    order of registration plays no part. In particular, when one file (A) has
    an access time strictly older than every other file (B, read after C was
    written, and C) and the limit forces exactly one eviction, the pass
    unlinks A and nothing else. *)
Theorem enforce_cache_limit_lru self env w :
  lists_dir env →
  ∃ ev w',
    _enforce_cache_limit self env w = (Ok tt, w') ∧
    local w' = remove_all ev (local w) ∧
    logs w' = logs w ++ evicted_logs (local w) ev ∧
    StronglySorted (lru_before env (local w)) ev ∧
    (∀ e s, e ∈ ev → is_Some (local w' !! s) → lru_before env (local w) e s) ∧
    (∀ a fa, local w !! a = Some fa →
       (∀ n f, local w !! n = Some f → n ≠ a → st_atime fa < st_atime f) →
       max_local_bytes self < dir_size (local w) →
       dir_size (local w) - st_size fa ≤ max_local_bytes self →
       ev = [a]).
Proof.
  intros Hl. exists (evicted self env (local w)). eexists.
  split; [by apply _enforce_cache_limit_eq|]. simpl. split_and!; try done.
  - unfold evicted. destruct (_ <=? _); [constructor|].
    destruct (victims_prefix (max_local_bytes self) (local w)
                (lru_order env (local w)) (dir_size (local w))) as [rest Hrest].
    pose proof (lru_order_sorted env (local w)) as Hst. rewrite Hrest in Hst.
    by eapply StronglySorted_app_1_l.
  - intros e s He Hs. rewrite lookup_remove_all in Hs.
    destruct (decide (s ∈ evicted self env (local w))) as [|Hns]; [by destruct Hs|].
    by eapply evicted_lru.
  - intros a fa Ha Hold Hover Hfit.
    apply (evicted_oldest_only self env (local w) a fa); try done.
    intros n Hn [f Hf]. unfold atime_in. rewrite Ha, Hf. simpl. by eapply Hold.
Qed.

(** A, B and C are fetched in that order, B is read again after C was
    written, and a fourth file takes the directory over a limit that three
    files fit in: A is unlinked, B and C stay. *)
Lemma enforce_cache_limit_lru_witness :
  let self := mkStorage "/data/fia" None "fia-duckdb" 35 in
  let env := simple_env listing ["A"; "B"; "C"; "D"] (blob 10) in
  let w := resolve_at self env 4 "B" (resolve_at self env 3 "C"
             (resolve_at self env 2 "B" (resolve_at self env 1 "A" empty_world))) in
  let w1 := put_file "D" (blob 10) (set_clock 5 w) in
  lists_dir env ∧
  (st_atime <$> local w1) = {[ "A" := 1; "B" := 4; "C" := 3; "D" := 5 ]} ∧
  ∃ w', _enforce_cache_limit self env w1 = (Ok tt, w') ∧
        local w' !! "A" = None ∧ is_Some (local w' !! "B") ∧ is_Some (local w' !! "C").
Proof.
  intros self env w w1. split; [apply lists_dir_listing|]. split; [by vm_compute|].
  destruct (enforce_cache_limit_lru self env w1)
    as (ev & w' & Hrun & Hloc & _ & _ & _ & Hone); [apply lists_dir_listing|].
  exists w'. split; [exact Hrun|].
  rewrite Hloc, (Hone "A" (mkFile (blob 10) 1 1)).
  - split; [by vm_compute|]. split; vm_compute; by eexists.
  - by vm_compute.
  - change (map_Forall (λ n f, n ≠ "A" → 1 < st_atime f) (local w1)).
    apply (bool_decide_unpack _). by vm_compute.
  - by vm_compute.
  - by vm_compute.
Defined.

(** C8 as stated fails: ties are not broken by insertion order. (1) A is
    registered at time 1 and B at time 2; both are read when the clock reads
    5; fetching C at time 6 takes the directory of three 10-byte files over
    the limit of 25. The directory is listed as B, A, C; A and B have the same
    access time, the stable sort leaves B in front, and the pass unlinks B,
    registered second, and keeps A, registered first. (2) The example, when
    its words are taken as the order of the reads (C is read, then B, then A):
    the file with the oldest access time is then C, and a limit that forces
    one eviction has C unlinked, and A kept. *)
Lemma eviction_tie_follows_listing_order :
  (let self := mkStorage "/data/fia" None "fia-duckdb" 25 in
   let env := simple_env listing_rev ["A"; "B"; "C"] (blob 10) in
   let w2 := resolve_at self env 2 "B" (resolve_at self env 1 "A" empty_world) in
   let w4 := resolve_at self env 5 "B" (resolve_at self env 5 "A" w2) in
   let w5 := resolve_at self env 6 "C" w4 in
   (st_mtime <$> local w2 !! "A") = Some 1 ∧
   (st_mtime <$> local w2 !! "B") = Some 2 ∧
   (st_atime <$> local w4 !! "A") = Some 5 ∧
   (st_atime <$> local w4 !! "B") = Some 5 ∧
   glob env (local (put_file "C" (blob 10) (set_clock 6 w4))) = ["B"; "A"; "C"] ∧
   local w5 !! "B" = None ∧
   local w5 !! "A" = Some (mkFile (blob 10) 5 5) ∧
   logs w5 = logs w4 ++ [LogMiss "C"; LogEvicted "B" 10]) ∧
  (let self := mkStorage "/data/fia" None "fia-duckdb" 35 in
   let env := simple_env listing ["A"; "B"; "C"; "D"] (blob 10) in
   let w3 := resolve_at self env 3 "C" (resolve_at self env 2 "B"
               (resolve_at self env 1 "A" empty_world)) in
   let w6 := resolve_at self env 6 "A" (resolve_at self env 5 "B"
               (resolve_at self env 4 "C" w3)) in
   let w7 := resolve_at self env 7 "D" w6 in
   (st_atime <$> local w6) = {[ "A" := 6; "B" := 5; "C" := 4 ]} ∧
   local w7 !! "C" = None ∧
   (st_atime <$> local w7) = {[ "A" := 6; "B" := 5; "D" := 7 ]} ∧
   logs w7 = logs w6 ++ [LogMiss "D"; LogEvicted "C" 10]).
Proof. by vm_compute. Qed.

(** C9, as the code has it. There is no single flight. Callers do not wait
    for one another and none observes the outcome of another's fetch: each
    caller that tests for the file before any population has put it in place
    goes through the tiers itself. When [n] callers for one unseen key all
    make the test before the first of them populates the directory, and the
    DataMart delivers, the DataMart is called [n] times (and S3 is asked [n]
    times when a bucket is configured), and all [n] calls return the local
    path. Under every schedule, every call that returns a path returns that
    same path. *)
Theorem no_single_flight self env state data w n :
  lists_dir env →
  local w !! upper state = None →
  s3_object self env (upper state) = None →
  download env (upper state) = Some data →
  (∃ w', run self env state (seq 0 n ++ seq 0 n) (replicate n Entering) w
           = (replicate n (Returned (Ok (local_path self (upper state)))), w') ∧
         origin_fetches (upper state) (calls w')
           = (origin_fetches (upper state) (calls w) + n)%nat ∧
         remote_lookups (calls w')
           = (remote_lookups (calls w) + if truthy (s3_bucket self) then n else 0)%nat) ∧
  (∀ schedule p,
     Returned (Ok p) ∈ (run self env state schedule (replicate n Entering) w).1 →
     p = local_path self (upper state)).
Proof.
  intros Hl Hmiss Hobj Hdl. split.
  - rewrite run_app.
    pose proof (run_all_test self env state w [] n Hmiss) as Htest.
    simpl in Htest. rewrite Htest. simpl.
    apply (run_all_fetch self env state data w [] n); done.
  - intros schedule p Hin.
    assert (Hall : Forall (λ c, c = Returned (Ok p) → p = local_path self (upper state))
                          (run self env state schedule (replicate n Entering) w).1).
    { apply run_paths, Forall_forall. by intros c ->%elem_of_replicate_inv. }
    rewrite Forall_forall in Hall. by eapply Hall.
Qed.

(** Three callers for "NC" on a cold cache, with a bucket that has no
    object for it: three S3 lookups and three downloads from the DataMart. *)
Lemma no_single_flight_witness :
  let self := mkStorage "/data/fia" (Some "fia-data") "fia-duckdb" 25 in
  let env := mkEnv listing (λ _ _, NoSuchKey) (λ _ _ _, true) (λ _, Some (blob 10)) in
  lists_dir env ∧
  ∃ w', run self env "nc" [0; 1; 2; 0; 1; 2]%nat [Entering; Entering; Entering] empty_world
          = (replicate 3 (Returned (Ok "/data/fia/NC.duckdb")), w') ∧
        origin_fetches "NC" (calls w') = 3%nat ∧
        remote_lookups (calls w') = 3%nat.
Proof.
  intros self env. split; [apply lists_dir_listing|].
  destruct (no_single_flight self env "nc" (blob 10) empty_world 3)
    as [(w' & Hrun & Hfetch & Hlookup) _];
    [apply lists_dir_listing|by vm_compute..|].
  exists w'. split; [exact Hrun|]. split; [exact Hfetch|exact Hlookup].
Defined.

(** C9 as stated fails. Two callers ask for "NC", which nobody has asked for
    before; both test for the file before either has fetched it (schedule
    0, 1, 0, 1). Each asks S3 and each downloads from the DataMart: two
    Origin fetches and two Remote lookups, where the claim has one of each.
    The second caller did not wait for the first, whose file was in place
    when the second started its download. *)
Lemma concurrent_callers_fetch_twice :
  let self := mkStorage "/data/fia" (Some "fia-data") "fia-duckdb" 25 in
  let env := mkEnv listing (λ _ _, NoSuchKey) (λ _ _ _, true) (λ _, Some (blob 10)) in
  let after_first := run self env "nc" [0; 1; 0]%nat [Entering; Entering] empty_world in
  let r := run self env "nc" [0; 1; 0; 1]%nat [Entering; Entering] empty_world in
  after_first.1 = [Returned (Ok "/data/fia/NC.duckdb"); SawMiss] ∧
  is_Some (local after_first.2 !! "NC") ∧
  r.1 = [Returned (Ok "/data/fia/NC.duckdb"); Returned (Ok "/data/fia/NC.duckdb")] ∧
  calls r.2 = [S3Download "fia-data" "fia-duckdb/NC.duckdb"; FIADownload "NC";
               S3Upload "fia-data" "fia-duckdb/NC.duckdb";
               S3Download "fia-data" "fia-duckdb/NC.duckdb"; FIADownload "NC";
               S3Upload "fia-data" "fia-duckdb/NC.duckdb"] ∧
  origin_fetches "NC" (calls r.2) = 2%nat ∧
  remote_lookups (calls r.2) = 2%nat.
Proof. vm_compute. split_and!; try done. by eexists. Qed.

(** C10. For every key whose backing file exists in the local cache
    directory, [get_db_path] returns the path of that file and changes
    nothing but the two time stamps of that one file: the network calls are
    those made before, the directory holds the same names, every other file
    is as it was, the file keeps its bytes, no file is unlinked (the one log
    record is the cache-hit message), and the outcome does not depend on the
    collaborators at all, so that neither the S3 client, nor the DataMart,
    nor the directory listing of an eviction pass is consulted. *)
Theorem get_db_path_hit_frame self env state w f :
  local w !! upper state = Some f →
  ∃ w',
    get_db_path self env state w = (Ok (local_path self (upper state)), w') ∧
    calls w' = calls w ∧
    clock w' = clock w ∧
    dom (local w') = dom (local w) ∧
    (∀ n, n ≠ upper state → local w' !! n = local w !! n) ∧
    local w' !! upper state = Some (mkFile (content f) (clock w) (clock w)) ∧
    logs w' = logs w ++ [LogLocalHit (upper state)] ∧
    (∀ env', get_db_path self env' state w = get_db_path self env state w).
Proof.
  intros Hf. eexists. rewrite get_db_path_unfold. cbv zeta. rewrite Hf.
  split; [reflexivity|]. simpl. repeat split.
  - rewrite dom_insert_L. apply subseteq_union_1_L, singleton_subseteq_l.
    by eapply elem_of_dom_2.
  - intros n Hn. by rewrite lookup_insert_ne.
  - by rewrite lookup_insert_eq.
  - intros env'. rewrite !get_db_path_unfold. cbv zeta. by rewrite Hf.
Qed.

Lemma get_db_path_hit_frame_witness :
  let self := mkStorage "/data/fia" None "fia-duckdb" 5 in
  let env := simple_env listing ["NC"] (blob 10) in
  let w := mkWorld {[ "NC" := mkFile (blob 10) 1 1; "GA" := mkFile (blob 10) 2 2 ]} 7 [] [] in
  local w !! upper "nc" = Some (mkFile (blob 10) 1 1) ∧
  ∃ w',
    get_db_path self env "nc" w = (Ok "/data/fia/NC.duckdb", w') ∧
    calls w' = [] ∧
    local w' = {[ "NC" := mkFile (blob 10) 7 7; "GA" := mkFile (blob 10) 2 2 ]}.
Proof.
  intros self env w. split; [by vm_compute|].
  destruct (get_db_path_hit_frame self env "nc" w (mkFile (blob 10) 1 1))
    as (w' & Hget & Hcalls & _ & _ & _ & _ & _ & _); [by vm_compute|].
  exists w'. split; [exact Hget|]. split; [exact Hcalls|].
  revert Hget. vm_compute. by intros [= <-].
Defined.

(** * Further properties of the code *)

(** ** The eviction pass *)

Lemma sum_sizes_missing files w n :
  n ∈ files → local w !! n = None →
  ∃ m, m ∈ files ∧ local w !! m = None ∧
       sum_sizes files w = (Raise (FileNotFoundError m), w).
Proof.
  induction files as [|f files IH]; intros Hin Hn; [by apply elem_of_nil in Hin|].
  cbn. unfold bind at 1. unfold stat.
  destruct (local w !! f) as [s|] eqn:Hf.
  - apply elem_of_cons in Hin as [->|Hin]; [congruence|].
    destruct (IH Hin Hn) as (m & Hm & Hnone & Hsum).
    exists m. split; [by right|]. split; [done|].
    unfold bind. by rewrite Hsum.
  - exists f. split; [by left|]. done.
Qed.

Lemma evicted_of_empty self env : lists_dir env → evicted self env ∅ = [].
Proof.
  intros Hl. unfold evicted. destruct (_ <=? _); [done|].
  assert (lru_order env ∅ = []) as ->; [|done].
  apply Permutation_nil_r. rewrite lru_order_perm, (Hl ∅).
  by rewrite map_to_list_empty.
Qed.

Lemma evicted_elem_of self env (d : Dir) n :
  lists_dir env →
  n ∈ evicted self env d ↔ is_Some (d !! n) ∧ remove_all (evicted self env d) d !! n = None.
Proof.
  intros Hl. rewrite lookup_remove_all. split.
  - intros Hin. split; [by eapply evicted_exist|]. by destruct (decide _).
  - intros [[f Hf] Hnone]. destruct (decide _); [done|congruence].
Qed.

(** X1. An eviction pass touches nothing it keeps and talks to nobody: it
    makes no network call and does not move the clock, every file it leaves is
    a file that was there, with the same bytes and time stamps, and the files
    it unlinks are exactly those for which it writes an "Evicted" record, one
    record each, with the size the file had. *)
Theorem enforce_cache_limit_frame self env w :
  lists_dir env →
  ∃ ev w',
    _enforce_cache_limit self env w = (Ok tt, w') ∧
    calls w' = calls w ∧ clock w' = clock w ∧
    (∀ n f, local w' !! n = Some f → local w !! n = Some f) ∧
    NoDup ev ∧
    (∀ n, n ∈ ev ↔ is_Some (local w !! n) ∧ local w' !! n = None) ∧
    logs w' = logs w ++ evicted_logs (local w) ev.
Proof.
  intros Hl. exists (evicted self env (local w)). eexists.
  split; [by apply _enforce_cache_limit_eq|]. simpl. split_and!; try done.
  - intros n f. rewrite lookup_remove_all. by destruct (decide _).
  - by apply evicted_NoDup.
  - intros n. by apply evicted_elem_of.
Qed.

Lemma enforce_cache_limit_frame_witness :
  let self := mkStorage "/data/fia" None "fia-duckdb" 15 in
  let env := simple_env listing [] [] in
  let w := mkWorld {[ "NC" := mkFile (blob 10) 1 1; "GA" := mkFile (blob 10) 2 2 ]} 7
                   [FIADownload "NC"; FIADownload "GA"] [] in
  lists_dir env ∧
  ∃ w', _enforce_cache_limit self env w = (Ok tt, w') ∧
        calls w' = [FIADownload "NC"; FIADownload "GA"] ∧
        local w' = {[ "GA" := mkFile (blob 10) 2 2 ]} ∧
        logs w' = [LogEvicted "NC" 10].
Proof.
  intros self env w. split; [apply lists_dir_listing|].
  destruct (enforce_cache_limit_frame self env w)
    as (ev & w' & Hrun & Hcalls & _); [apply lists_dir_listing|].
  exists w'. split; [exact Hrun|]. split; [exact Hcalls|].
  revert Hrun. vm_compute. by intros [= <-].
Defined.

(** X2. An eviction pass unlinks nothing it need not: a directory within
    the limit is left exactly as it is, with no log record; and when files are
    unlinked, the directory that is left would be over the limit again with
    the file unlinked last put back. *)
Theorem enforce_cache_limit_minimal self env w :
  lists_dir env →
  (dir_size (local w) ≤ max_local_bytes self →
   _enforce_cache_limit self env w = (Ok tt, w)) ∧
  ∃ ev w',
    _enforce_cache_limit self env w = (Ok tt, w') ∧
    local w' = remove_all ev (local w) ∧
    logs w' = logs w ++ evicted_logs (local w) ev ∧
    (∀ ev0 e, ev = ev0 ++ [e] →
       max_local_bytes self < dir_size (local w') + size_in (local w) e).
Proof.
  intros Hl. split.
  - intros Hfit. rewrite _enforce_cache_limit_eq, evicted_within by done.
    by rewrite after_eviction_nil.
  - exists (evicted self env (local w)). eexists.
    split; [by apply _enforce_cache_limit_eq|]. simpl. split_and!; try done.
    intros ev0 e Hev.
    rewrite dir_size_remove_all
      by (by apply evicted_NoDup || (intros n; by apply evicted_exist)).
    rewrite Hev, sizes_in_app, sizes_in_cons.
    assert (sizes_in (local w) [] = 0) as -> by done.
    unfold evicted in Hev.
    destruct (dir_size (local w) <=? max_local_bytes self).
    { symmetry in Hev. by apply app_eq_nil in Hev as [_ ?]. }
    pose proof (victims_over _ _ _ _ ev0 [e] Hev) as Hover.
    specialize (Hover ltac:(done)). lia.
Qed.

Lemma enforce_cache_limit_minimal_witness :
  let self := mkStorage "/data/fia" None "fia-duckdb" 25 in
  let env := simple_env listing [] [] in
  let w := mkWorld {[ "NC" := mkFile (blob 10) 1 1; "GA" := mkFile (blob 10) 2 2 ]} 7 [] [] in
  lists_dir env ∧ dir_size (local w) ≤ max_local_bytes self ∧
  _enforce_cache_limit self env w = (Ok tt, w).
Proof.
  intros self env w. split; [apply lists_dir_listing|]. split; [by vm_compute|].
  destruct (enforce_cache_limit_minimal self env w) as [Hfit _];
    [apply lists_dir_listing|].
  apply Hfit. by vm_compute.
Defined.

(** X3. A second eviction pass right after a first one changes nothing: what
    a pass leaves is within the limit or empty, and a pass over such a
    directory unlinks no file and writes no log record. *)
Theorem enforce_cache_limit_idempotent self env w w1 :
  lists_dir env →
  _enforce_cache_limit self env w = (Ok tt, w1) →
  _enforce_cache_limit self env w1 = (Ok tt, w1).
Proof.
  intros Hl. rewrite _enforce_cache_limit_eq by done. intros [= <-].
  rewrite _enforce_cache_limit_eq by done.
  assert (evicted self env (local (after_eviction (evicted self env (local w)) w)) = [])
    as ->; [|by rewrite after_eviction_nil].
  change (local (after_eviction (evicted self env (local w)) w))
    with (remove_all (evicted self env (local w)) (local w)).
  destruct (evicted_quota self env (local w) Hl) as [Hq|Hq].
  - by apply evicted_within.
  - rewrite Hq. by apply evicted_of_empty.
Qed.

Lemma enforce_cache_limit_idempotent_witness :
  let self := mkStorage "/data/fia" None "fia-duckdb" 15 in
  let env := simple_env listing [] [] in
  let w := mkWorld {[ "NC" := mkFile (blob 10) 1 1; "GA" := mkFile (blob 10) 2 2 ]} 7 [] [] in
  let w1 := mkWorld {[ "GA" := mkFile (blob 10) 2 2 ]} 7 [] [LogEvicted "NC" 10] in
  lists_dir env ∧
  _enforce_cache_limit self env w = (Ok tt, w1) ∧
  _enforce_cache_limit self env w1 = (Ok tt, w1).
Proof.
  intros self env w w1. split; [apply lists_dir_listing|]. split; [by vm_compute|].
  apply (enforce_cache_limit_idempotent self env w w1);
    [apply lists_dir_listing|by vm_compute].
Defined.

(** X4. When [glob] lists a file that is no longer there (another process
    has removed it since), the pass raises [FileNotFoundError] for such a file
    at the first [stat], before it has unlinked anything: the world is as it
    was. This holds for every listing, also one that does not list the
    directory faithfully. *)
Theorem enforce_cache_limit_vanished_file self env w n :
  n ∈ glob env (local w) → local w !! n = None →
  ∃ m, m ∈ glob env (local w) ∧ local w !! m = None ∧
       _enforce_cache_limit self env w = (Raise (FileNotFoundError m), w).
Proof.
  intros Hin Hn.
  destruct (sum_sizes_missing (glob env (local w)) w n Hin Hn) as (m & Hm & Hnone & Hsum).
  exists m. split; [done|]. split; [done|].
  unfold _enforce_cache_limit, bind. by rewrite Hsum.
Qed.

Lemma enforce_cache_limit_vanished_file_witness :
  let self := mkStorage "/data/fia" None "fia-duckdb" 15 in
  let env := mkEnv (λ d, "GA" :: listing d) (λ _ _, NoSuchKey) (λ _ _ _, true) (λ _, None) in
  let w := mkWorld {[ "NC" := mkFile (blob 20) 1 1 ]} 7 [] [] in
  "GA" ∈ glob env (local w) ∧ local w !! "GA" = None ∧
  ∃ m, m ∈ glob env (local w) ∧ local w !! m = None ∧
       _enforce_cache_limit self env w = (Raise (FileNotFoundError m), w).
Proof.
  intros self env w. split; [by left|]. split; [by vm_compute|].
  apply (enforce_cache_limit_vanished_file self env w "GA"); [by left|by vm_compute].
Defined.

(** ** [get_db_path] *)

Lemma upper_ascii_idem c : upper_ascii (upper_ascii c) = upper_ascii c.
Proof. destruct c as [[] [] [] [] [] [] [] []]; reflexivity. Qed.

Lemma upper_idem s : upper (upper s) = upper s.
Proof. induction s as [|c s IH]; simpl; [done|]. by rewrite upper_ascii_idem, IH. Qed.

Lemma s3_tier_no_bucket self env k w :
  truthy (s3_bucket self) = false → s3_tier self env k w = (Ok false, w).
Proof. intros H. unfold s3_tier. by rewrite H. Qed.

Lemma s3_object_no_bucket self env k :
  truthy (s3_bucket self) = false → s3_object self env k = None.
Proof. intros H. unfold s3_object. by rewrite H. Qed.

(** X5. The key is taken without regard to case: two spellings of a state
    code with the same upper-case form give the same call in every respect
    (result, directory, network calls, log), and so does the upper-case form
    itself; [str.upper()] applied twice is [str.upper()]. *)
Theorem get_db_path_case_insensitive self env s1 s2 w :
  upper s1 = upper s2 →
  get_db_path self env s1 w = get_db_path self env s2 w ∧
  get_db_path self env (upper s1) w = get_db_path self env s1 w.
Proof.
  intros Heq. rewrite !get_db_path_unfold. cbv zeta. by rewrite upper_idem, Heq.
Qed.

Lemma get_db_path_case_insensitive_witness :
  let self := mkStorage "/data/fia" None "fia-duckdb" 25 in
  let env := simple_env listing ["NC"] (blob 10) in
  upper "nc" = upper "Nc" ∧
  get_db_path self env "nc" empty_world = get_db_path self env "Nc" empty_world ∧
  fst (get_db_path self env "nc" empty_world) = Ok "/data/fia/NC.duckdb".
Proof.
  intros self env. split; [done|].
  split; [by apply (get_db_path_case_insensitive self env "nc" "Nc")|by vm_compute].
Defined.

(** X6. A call for one key never creates or alters the file of another key:
    whatever its outcome, every other file the directory holds afterwards was
    there before, with the same bytes and time stamps. (The eviction pass may
    remove other files; nothing else happens to them.) *)
Theorem get_db_path_other_files self env state w r w' :
  lists_dir env →
  get_db_path self env state w = (r, w') →
  ∀ n f, n ≠ upper state → local w' !! n = Some f → local w !! n = Some f.
Proof. apply get_db_path_other_files_aux. Qed.

Lemma get_db_path_other_files_witness :
  let self := mkStorage "/data/fia" None "fia-duckdb" 25 in
  let env := simple_env listing ["NC"] (blob 10) in
  let w := mkWorld {[ "GA" := mkFile (blob 10) 2 2 ]} 7 [] [] in
  lists_dir env ∧
  ∀ r w', get_db_path self env "nc" w = (r, w') →
          ∀ f, local w' !! "GA" = Some f → f = mkFile (blob 10) 2 2.
Proof.
  intros self env w. split; [apply lists_dir_listing|].
  intros r w' Hget f Hf.
  pose proof (get_db_path_other_files self env "nc" w r w' (lists_dir_listing _ _ _)
                Hget "GA" f) as Hsame.
  assert (local w !! "GA" = Some f) as Hw; [apply Hsame; [by vm_compute|exact Hf]|].
  revert Hw. vm_compute. by intros [= <-].
Defined.

(** X7. One call makes at most three network calls, and in a fixed order:
    at most one S3 download, then at most one download from the DataMart,
    then at most one S3 upload, all for the upper-cased key; the calls made
    before stay as they are. *)
Theorem get_db_path_calls_bounded self env state w r w' :
  lists_dir env →
  get_db_path self env state w = (r, w') →
  ∃ cs, calls w' = calls w ++ cs ∧
        cs `sublist_of` [S3Download (bucket_name self) (s3_key self (upper state));
                         FIADownload (upper state);
                         S3Upload (bucket_name self) (s3_key self (upper state))].
Proof.
  intros Hl Hget.
  destruct (local w !! upper state) as [f0|] eqn:Hk.
  { rewrite (get_db_path_hit _ _ _ _ f0) in Hget by done. injection Hget as _ <-.
    exists []. simpl. rewrite app_nil_r. split; [done|]. apply sublist_nil_l. }
  destruct (s3_object self env (upper state)) as [obj|] eqn:Hobj.
  { destruct (get_db_path_s3_hit self env state w obj) as (w2 & Hget2 & Hc & _);
      try done.
    rewrite Hget2 in Hget. injection Hget as _ <-. eexists. split; [exact Hc|].
    apply sublist_skip || apply sublist_cons. apply sublist_nil_l. }
  assert (Hs3 : ∀ tl, (s3_download_calls self (upper state) ++ FIADownload (upper state) :: tl)
            `sublist_of` (S3Download (bucket_name self) (s3_key self (upper state))
                          :: FIADownload (upper state) :: tl)).
  { intros tl. unfold s3_download_calls. destruct (truthy _); simpl.
    - done.
    - by apply sublist_cons. }
  destruct (download env (upper state)) as [data|] eqn:Hdl.
  - destruct (get_db_path_origin self env state w data) as (w2 & Hget2 & Hc & _);
      try done.
    rewrite Hget2 in Hget. injection Hget as _ <-. eexists. split; [exact Hc|].
    simpl. etrans; [apply Hs3|]. do 2 apply sublist_skip.
    unfold s3_upload_calls. destruct (truthy _); [done|apply sublist_nil_l].
  - destruct (get_db_path_origin_fail self env state w) as (w2 & Hget2 & Hc & _);
      try done.
    rewrite Hget2 in Hget. injection Hget as _ <-. eexists. split; [exact Hc|].
    etrans; [apply Hs3|]. do 2 apply sublist_skip. apply sublist_nil_l.
Qed.

Lemma get_db_path_calls_bounded_witness :
  let self := mkStorage "/data/fia" (Some "fia-data") "fia-duckdb" 25 in
  let env := mkEnv listing (λ _ _, NoSuchKey) (λ _ _ _, true) (λ _, Some (blob 10)) in
  let r := get_db_path self env "nc" empty_world in
  lists_dir env ∧
  (∃ cs, calls r.2 = calls empty_world ++ cs ∧
         cs `sublist_of` [S3Download "fia-data" "fia-duckdb/NC.duckdb"; FIADownload "NC";
                          S3Upload "fia-data" "fia-duckdb/NC.duckdb"]) ∧
  calls r.2 = [S3Download "fia-data" "fia-duckdb/NC.duckdb"; FIADownload "NC";
               S3Upload "fia-data" "fia-duckdb/NC.duckdb"].
Proof.
  intros self env r. split; [apply lists_dir_listing|]. split; [|by vm_compute].
  apply (get_db_path_calls_bounded self env "nc" empty_world r.1 r.2);
    [apply lists_dir_listing|apply surjective_pairing].
Defined.

Lemma evicted_same_limit self1 self2 env (d : Dir) :
  max_local_bytes self1 = max_local_bytes self2 →
  evicted self1 env d = evicted self2 env d.
Proof. intros H. unfold evicted. by rewrite H. Qed.

Lemma local_path_same_dir self1 self2 k :
  local_dir self1 = local_dir self2 → local_path self1 k = local_path self2 k.
Proof. intros H. unfold local_path. by rewrite H. Qed.

Lemma get_db_path_no_bucket_fail self env state w :
  truthy (s3_bucket self) = false →
  local w !! upper state = None →
  download env (upper state) = None →
  get_db_path self env state w =
    (Raise (DownloadError (upper state)),
     add_call (FIADownload (upper state)) (add_log (LogMiss (upper state)) w)).
Proof.
  intros Hs3 Hmiss Hdl. rewrite get_db_path_unfold. cbv zeta.
  rewrite Hmiss, miss_branch_unfold, s3_tier_no_bucket by done.
  by rewrite _download_from_fia_fail.
Qed.

(** X8. Without a bucket the resolver works on two tiers: it makes no S3
    call at all, and the result and the directory it leaves are those of a
    storage with a bucket in which the object is not found ([NoSuchKey]), the
    cache directory and the limit being the same. *)
Theorem get_db_path_without_bucket self self' env state w :
  lists_dir env →
  truthy (s3_bucket self) = false →
  local_dir self' = local_dir self →
  max_local_bytes self' = max_local_bytes self →
  download_file env (bucket_name self') (s3_key self' (upper state)) = NoSuchKey →
  (∃ cs, calls (get_db_path self env state w).2 = calls w ++ cs ∧
         cs `sublist_of` [FIADownload (upper state)]) ∧
  (get_db_path self' env state w).1 = (get_db_path self env state w).1 ∧
  local (get_db_path self' env state w).2 = local (get_db_path self env state w).2.
Proof.
  intros Hl Hs3 Hdir Hmax Hnone.
  assert (Hobj : s3_object self env (upper state) = None)
    by (by apply s3_object_no_bucket).
  assert (Hobj' : s3_object self' env (upper state) = None).
  { unfold s3_object. destruct (truthy (s3_bucket self')); [|done]. by rewrite Hnone. }
  destruct (local w !! upper state) as [f0|] eqn:Hk.
  { rewrite !(get_db_path_hit _ _ _ _ f0) by done. simpl.
    rewrite (local_path_same_dir self' self) by done. split; [|done].
    exists []. rewrite app_nil_r. split; [done|apply sublist_nil_l]. }
  destruct (download env (upper state)) as [data|] eqn:Hdl.
  - destruct (get_db_path_origin self env state w data) as (w1 & -> & Hc & _ & Hloc);
      try done.
    destruct (get_db_path_origin self' env state w data) as (w2 & -> & _ & _ & Hloc');
      try done.
    simpl. split_and!.
    + eexists. split; [exact Hc|]. unfold s3_download_calls, s3_upload_calls.
      by rewrite Hs3.
    + by rewrite (local_path_same_dir self' self).
    + by rewrite Hloc, Hloc', (evicted_same_limit self' self).
  - rewrite (get_db_path_no_bucket_fail self) by done.
    destruct (get_db_path_origin_fail self' env state w) as (w2 & -> & _ & _ & Hloc');
      try done.
    simpl. split_and!; [| done |].
    + exists [FIADownload (upper state)]. done.
    + destruct Hloc' as [->|(part & Hpart & _)]; [done|congruence].
Qed.

Lemma get_db_path_without_bucket_witness :
  let self := mkStorage "/data/fia" None "fia-duckdb" 25 in
  let self' := mkStorage "/data/fia" (Some "fia-data") "fia-duckdb" 25 in
  let env := mkEnv listing (λ _ _, NoSuchKey) (λ _ _ _, true) (λ _, Some (blob 10)) in
  lists_dir env ∧ truthy (s3_bucket self) = false ∧
  calls (get_db_path self env "nc" empty_world).2 = [FIADownload "NC"] ∧
  (get_db_path self' env "nc" empty_world).1 = (get_db_path self env "nc" empty_world).1 ∧
  local (get_db_path self' env "nc" empty_world).2
    = local (get_db_path self env "nc" empty_world).2.
Proof.
  intros self self' env. split; [apply lists_dir_listing|]. split; [done|].
  split; [by vm_compute|].
  apply (get_db_path_without_bucket self self' env "nc" empty_world);
    [apply lists_dir_listing|done..].
Defined.

(** X9. When [glob] lists the directory faithfully, [get_db_path] returns
    exactly when the file is in the cache directory or a slower tier delivers
    it, and what it returns is then [local_dir / STATE.duckdb]; the only
    exception it raises is the failure of the DataMart download, and it
    raises it only for a key that is neither cached nor in S3. *)
Theorem get_db_path_returns_iff self env state w :
  lists_dir env →
  ((∃ p w', get_db_path self env state w = (Ok p, w')) ↔
   is_Some (local w !! upper state) ∨ is_Some (fetched self env (upper state))) ∧
  (∀ p w', get_db_path self env state w = (Ok p, w') →
           p = local_dir self +:+ "/" +:+ upper state +:+ ".duckdb") ∧
  (∀ e w', get_db_path self env state w = (Raise e, w') →
           e = DownloadError (upper state) ∧
           local w !! upper state = None ∧
           s3_object self env (upper state) = None ∧
           download env (upper state) = None).
Proof.
  intros Hl. split_and!.
  - split.
    + intros (p & w' & Hget).
      destruct (local w !! upper state) as [f0|] eqn:Hk; [left; by eexists|right].
      destruct (get_db_path_miss_cases self env state w Hl Hk)
        as [(data & w2 & -> & _)|(w2 & _ & Hget2 & _)]; [by eexists|congruence].
    + intros [[f0 Hk]|[data Hfetch]].
      * eexists _, _. by apply (get_db_path_hit _ _ _ _ f0).
      * destruct (local w !! upper state) as [f0|] eqn:Hk.
        { eexists _, _. by apply (get_db_path_hit _ _ _ _ f0). }
        destruct (get_db_path_populate self env state w data) as (w' & ? & _);
          try done. by eexists _, _.
  - intros p w' Hget. by apply get_db_path_ok_path in Hget.
  - intros e w' Hget.
    destruct (local w !! upper state) as [f0|] eqn:Hk.
    { by rewrite (get_db_path_hit _ _ _ _ f0) in Hget. }
    destruct (get_db_path_miss_cases self env state w Hl Hk)
      as [(data & w2 & _ & Hget2 & _)|(w2 & Hfetch & Hget2 & _)]; [congruence|].
    rewrite Hget2 in Hget. injection Hget as <- _.
    unfold fetched in Hfetch. by destruct (s3_object self env (upper state)).
Qed.

Lemma get_db_path_returns_iff_witness :
  let self := mkStorage "/data/fia" None "fia-duckdb" 25 in
  let env := simple_env listing ["NC"] (blob 10) in
  lists_dir env ∧
  (∃ p w', get_db_path self env "nc" empty_world = (Ok p, w')) ∧
  ¬ (∃ p w', get_db_path self env "zz" empty_world = (Ok p, w')).
Proof.
  intros self env. split; [apply lists_dir_listing|].
  destruct (get_db_path_returns_iff self env "nc" empty_world) as (Hnc & _);
    [apply lists_dir_listing|].
  destruct (get_db_path_returns_iff self env "zz" empty_world) as (Hzz & _);
    [apply lists_dir_listing|].
  split.
  - apply Hnc. right. vm_compute. by eexists.
  - intros Hok. apply Hzz in Hok as [[? Hk]|[? Hf]]; [by vm_compute in Hk|by vm_compute in Hf].
Defined.

(** X10. The upload to S3 is best effort: whether [upload_file] returns or
    raises changes neither the result of [get_db_path], nor the cache
    directory, nor the network calls made, nor the clock; it shows only in
    the log. *)
Theorem upload_outcome_irrelevant self env up' state w :
  let env' := mkEnv (glob env) (download_file env) up' (download env) in
  (get_db_path self env' state w).1 = (get_db_path self env state w).1 ∧
  local (get_db_path self env' state w).2 = local (get_db_path self env state w).2 ∧
  calls (get_db_path self env' state w).2 = calls (get_db_path self env state w).2 ∧
  clock (get_db_path self env' state w).2 = clock (get_db_path self env state w).2.
Proof.
  intros env'. rewrite !get_db_path_unfold. cbv zeta.
  destruct (local w !! upper state); [done|].
  rewrite !miss_branch_unfold.
  change (s3_tier self env' (upper state) w) with (s3_tier self env (upper state) w).
  destruct (s3_tier self env (upper state) w) as [[[|]|e] w1]; [| |done].
  - change (_enforce_cache_limit self env' (add_log (LogS3Hit (upper state)) w1))
      with (_enforce_cache_limit self env (add_log (LogS3Hit (upper state)) w1)).
    by destruct (_enforce_cache_limit self env _) as [[[]|e] w2].
  - change (_download_from_fia self env' (upper state) (add_log (LogMiss (upper state)) w1))
      with (_download_from_fia self env (upper state) (add_log (LogMiss (upper state)) w1)).
    destruct (_download_from_fia self env _ _) as [[[]|e] w2]; [|done].
    change (_enforce_cache_limit self env' w2) with (_enforce_cache_limit self env w2).
    destruct (_enforce_cache_limit self env w2) as [[[]|e] w3]; [|done].
    destruct (truthy (s3_bucket self)); [|done].
    destruct (_upload_to_s3_frame self env (upper state) w3)
      as (b & w4 & -> & Hl4 & Ht4 & Hc4).
    destruct (_upload_to_s3_frame self env' (upper state) w3)
      as (b' & w4' & -> & Hl4' & Ht4' & Hc4').
    simpl. by rewrite Hl4, Hl4', Ht4, Ht4', Hc4, Hc4'.
Qed.

(** X11. What is stored is what was delivered. On a miss, when the
    directory with the new artifact in it is within the limit, the call
    returns and leaves every file that was there, plus the file of the key
    with exactly the bytes delivered, stamped with the current time: the S3
    object when S3 has one (the DataMart is then not asked), else the
    DataMart's artifact. *)
Theorem get_db_path_stores_what_was_fetched self env state w data :
  lists_dir env →
  local w !! upper state = None →
  fetched self env (upper state) = Some data →
  dir_size (local w) + Z.of_nat (length data) ≤ max_local_bytes self →
  ∃ w', get_db_path self env state w = (Ok (local_path self (upper state)), w') ∧
        local w' = <[upper state := mkFile data (clock w) (clock w)]> (local w) ∧
        (∀ obj, s3_object self env (upper state) = Some obj →
                data = obj ∧ FIADownload (upper state) ∉ drop (length (calls w)) (calls w')).
Proof.
  intros Hl Hmiss Hfetch Hfit.
  assert (Hpop : dir_size (populated state data w) ≤ max_local_bytes self).
  { unfold populated. rewrite dir_size_insert_fresh by done.
    unfold st_size. simpl. lia. }
  destruct (get_db_path_populate self env state w data) as (w' & Hget & _ & Hloc);
    try done.
  exists w'. split; [done|]. split.
  { by rewrite Hloc, evicted_within. }
  intros obj Hobj. unfold fetched in Hfetch. rewrite Hobj in Hfetch.
  injection Hfetch as ->. split; [done|].
  destruct (get_db_path_s3_hit self env state w data) as (w2 & Hget2 & Hc & _);
    try done.
  rewrite Hget2 in Hget. injection Hget as <-.
  rewrite Hc, drop_app_length. by intros [=]%list_elem_of_singleton.
Qed.

Lemma get_db_path_stores_what_was_fetched_witness :
  let self := mkStorage "/data/fia" (Some "fia-data") "fia-duckdb" 25 in
  let env := mkEnv listing (λ _ _, S3Object (blob 7)) (λ _ _ _, true) (λ _, Some (blob 10)) in
  let w := mkWorld {[ "GA" := mkFile (blob 10) 2 2 ]} 7 [] [] in
  lists_dir env ∧
  ∃ w', get_db_path self env "nc" w = (Ok "/data/fia/NC.duckdb", w') ∧
        local w' = {[ "GA" := mkFile (blob 10) 2 2; "NC" := mkFile (blob 7) 7 7 ]}.
Proof.
  intros self env w. split; [apply lists_dir_listing|].
  destruct (get_db_path_stores_what_was_fetched self env "nc" w (blob 7))
    as (w' & Hget & Hloc & _); [apply lists_dir_listing|by vm_compute..|].
  exists w'. split; [exact Hget|]. rewrite Hloc. by vm_compute.
Defined.

Lemma lru_order_sizes env (d : Dir) :
  lists_dir env → sizes_in d (lru_order env d) = dir_size d.
Proof. intros Hl. apply sizes_in_glob. by rewrite lru_order_perm. Qed.

(** A file that fits within the limit on its own and was accessed strictly
    after every other file is not unlinked by a pass. *)
Lemma evicted_newest_kept self env (d : Dir) k f :
  lists_dir env →
  d !! k = Some f →
  st_size f ≤ max_local_bytes self →
  (∀ n, n ≠ k → is_Some (d !! n) → atime_in d n < atime_in d k) →
  k ∉ evicted self env d.
Proof.
  intros Hl Hk Hfit Hnew Hin. unfold evicted in Hin.
  destruct (dir_size d <=? max_local_bytes self); [by apply elem_of_nil in Hin|].
  destruct (victims_prefix (max_local_bytes self) d (lru_order env d) (dir_size d))
    as [rest Hrest].
  set (ev := victims _ _ _ _) in *.
  pose proof (lru_order_sorted env d) as Hst.
  pose proof (lru_order_NoDup env d Hl) as Hnd.
  pose proof (lru_order_sizes env d Hl) as Hsize.
  assert (Hlater : ∀ s, s ∈ lru_order env d → s ≠ k → ¬ lru_before env d k s).
  { intros s Hs Hne Hb. apply (elem_of_lru_order env) in Hs; [|done].
    specialize (Hnew s Hne Hs). destruct Hb as [?|[? _]]; lia. }
  apply list_elem_of_split in Hin as (l1 & l2 & Hev).
  rewrite Hrest, Hev in Hst, Hnd, Hsize, Hlater.
  rewrite <-app_assoc in Hst, Hnd, Hsize, Hlater. simpl in *.
  apply NoDup_app in Hnd as (_ & _ & Hnd). apply NoDup_cons in Hnd as [Hk_notin _].
  apply StronglySorted_app_1_r, StronglySorted_cons in Hst as [Hall _].
  rewrite Forall_forall in Hall.
  assert (l2 ++ rest = []) as Hnil.
  { destruct (l2 ++ rest) as [|s tl] eqn:E; [done|exfalso].
    apply (Hlater s).
    - apply elem_of_app. right. right. by left.
    - intros ->. apply Hk_notin. by left.
    - apply Hall. by left. }
  apply app_eq_nil in Hnil as [-> ->].
  pose proof (victims_over (max_local_bytes self) d (lru_order env d) (dir_size d)
                l1 [k] Hev ltac:(done)) as Hover.
  rewrite sizes_in_app, sizes_in_cons in Hsize.
  unfold size_in in Hsize. rewrite Hk in Hsize.
  simpl in Hsize. change (sizes_in d []) with 0 in Hsize. lia.
Qed.

(** X12. The counterpart of the artifact that is too large: on a miss, an
    artifact that fits within the limit on its own, written when the clock
    reads later than the access time of every file in the directory, is still
    at the returned path when the call returns, with the bytes delivered,
    however many other files the eviction pass has to remove. *)
Theorem get_db_path_newest_survives self env state w data :
  lists_dir env →
  local w !! upper state = None →
  fetched self env (upper state) = Some data →
  Z.of_nat (length data) ≤ max_local_bytes self →
  (∀ n f, local w !! n = Some f → st_atime f < clock w) →
  ∃ w', get_db_path self env state w = (Ok (local_path self (upper state)), w') ∧
        local w' !! upper state = Some (mkFile data (clock w) (clock w)).
Proof.
  intros Hl Hmiss Hfetch Hfit Hnew.
  destruct (get_db_path_populate self env state w data) as (w' & Hget & _ & Hloc);
    try done.
  exists w'. split; [done|]. rewrite Hloc, lookup_remove_all.
  destruct (decide _) as [Hin|_]; [exfalso|by apply lookup_insert_eq].
  revert Hin.
  apply (evicted_newest_kept self env _ _ (mkFile data (clock w) (clock w))); try done.
  - by apply lookup_insert_eq.
  - intros n Hn [f Hf]. unfold atime_in, populated in *.
    rewrite lookup_insert_eq. rewrite lookup_insert_ne in Hf |- * by done.
    rewrite Hf. simpl. by eapply Hnew.
Qed.

Lemma get_db_path_newest_survives_witness :
  let self := mkStorage "/data/fia" None "fia-duckdb" 15 in
  let env := simple_env listing ["NC"] (blob 10) in
  let w := mkWorld {[ "GA" := mkFile (blob 10) 2 2; "OR" := mkFile (blob 10) 3 3 ]} 7 [] [] in
  lists_dir env ∧
  ∃ w', get_db_path self env "nc" w = (Ok "/data/fia/NC.duckdb", w') ∧
        local w' = {[ "NC" := mkFile (blob 10) 7 7 ]}.
Proof.
  intros self env w. split; [apply lists_dir_listing|].
  destruct (get_db_path_newest_survives self env "nc" w (blob 10))
    as (w' & Hget & _); [apply lists_dir_listing|by vm_compute..| |].
  - change (map_Forall (λ _ f, st_atime f < 7) (local w)).
    apply (bool_decide_unpack _). by vm_compute.
  - exists w'. split; [exact Hget|]. revert Hget. vm_compute. by intros [= <-].
Defined.

(** X13. The DataMart path is atomic for the cache directory: when no
    bucket is configured, or the S3 client leaves nothing behind a download
    that fails, a call that raises leaves the directory exactly as it was,
    and has asked the DataMart once. *)
Theorem get_db_path_failure_atomic self env state w e w' :
  lists_dir env →
  truthy (s3_bucket self) = false ∨ client_atomic env →
  get_db_path self env state w = (Raise e, w') →
  local w' = local w ∧
  calls w' = calls w ++ s3_download_calls self (upper state) ++ [FIADownload (upper state)].
Proof.
  intros Hl Hclean Hget.
  destruct (local w !! upper state) as [f0|] eqn:Hk.
  { by rewrite (get_db_path_hit _ _ _ _ f0) in Hget. }
  destruct (get_db_path_miss_cases self env state w Hl Hk)
    as [(data & w2 & _ & Hget2 & _)|(w2 & Hfetch & _)]; [congruence|].
  unfold fetched in Hfetch.
  destruct (s3_object self env (upper state)) eqn:Hobj; [done|].
  destruct Hclean as [Hs3|Hatomic].
  - rewrite get_db_path_no_bucket_fail in Hget by done. injection Hget as _ <-.
    unfold s3_download_calls. by rewrite Hs3.
  - destruct (get_db_path_origin_fail self env state w) as (w3 & Hget3 & Hc & _ & Hloc);
      try done.
    rewrite Hget3 in Hget. injection Hget as _ <-. split; [|done].
    destruct Hloc as [?|(part & Hpart & _)]; [done|]. by destruct (Hatomic _ _ _ Hpart).
Qed.

Lemma get_db_path_failure_atomic_witness :
  let self := mkStorage "/data/fia" None "fia-duckdb" 25 in
  let env := simple_env listing [] [] in
  let w := mkWorld {[ "GA" := mkFile (blob 10) 2 2 ]} 7 [] [] in
  lists_dir env ∧
  get_db_path self env "nc" w
    = (Raise (DownloadError "NC"), (get_db_path self env "nc" w).2) ∧
  local (get_db_path self env "nc" w).2 = local w.
Proof.
  intros self env w. split; [apply lists_dir_listing|]. split; [by vm_compute|].
  apply (get_db_path_failure_atomic self env "nc" w (DownloadError "NC")
           (get_db_path self env "nc" w).2);
    [apply lists_dir_listing|by left|by vm_compute].
Defined.

(** ** [preload] *)

Lemma dir_size_insert_same_size (d : Dir) k f f' :
  d !! k = Some f → st_size f' = st_size f → dir_size (<[k := f']> d) = dir_size d.
Proof.
  intros Hk Hsize. rewrite <-(insert_delete_eq d k f').
  rewrite dir_size_insert_fresh by apply lookup_delete_eq.
  rewrite (dir_size_delete d k f) by done. lia.
Qed.

Lemma fetch_size_nonneg self env s : 0 ≤ fetch_size self env s.
Proof. unfold fetch_size. destruct (fetched _ _ _); simpl; lia. Qed.

Lemma fetch_sizes_cons self env s states :
  fetch_sizes self env (s :: states) = fetch_size self env s + fetch_sizes self env states.
Proof. done. Qed.

Lemma fetch_sizes_nonneg self env states : 0 ≤ fetch_sizes self env states.
Proof.
  induction states as [|s states IH]; [done|].
  rewrite fetch_sizes_cons. pose proof (fetch_size_nonneg self env s). lia.
Qed.

(** One call in a directory that has room for what the call may fetch. *)
Lemma get_db_path_with_room self env s w :
  lists_dir env →
  truthy (s3_bucket self) = false ∨ client_atomic env →
  dir_size (local w) + fetch_size self env s ≤ max_local_bytes self →
  ∃ r w1, get_db_path self env s w = (r, w1) ∧
    (∀ n, is_Some (local w !! n) → is_Some (local w1 !! n)) ∧
    dir_size (local w1) ≤ dir_size (local w) + fetch_size self env s ∧
    (is_Some (fetched self env (upper s)) → is_Some (local w1 !! upper s)) ∧
    (∀ e, r = Raise e →
          e = DownloadError (upper s) ∧ local w !! upper s = None ∧
          fetched self env (upper s) = None) ∧
    (local w !! upper s = None → fetched self env (upper s) = None →
     r = Raise (DownloadError (upper s))).
Proof.
  intros Hl Hclean Hroom. pose proof (fetch_size_nonneg self env s) as Hnn.
  destruct (local w !! upper s) as [f0|] eqn:Hk.
  { eexists _, _. split; [by apply (get_db_path_hit _ _ _ _ f0)|]. simpl.
    split_and!; try done.
    - intros n Hn. destruct (decide (n = upper s)) as [->|Hne].
      + rewrite lookup_insert_eq. by eexists.
      + by rewrite lookup_insert_ne.
    - rewrite (dir_size_insert_same_size _ _ f0) by done. lia.
    - intros _. rewrite lookup_insert_eq. by eexists. }
  unfold fetch_size in *.
  destruct (fetched self env (upper s)) as [data|] eqn:Hfetch; simpl in *.
  - destruct (get_db_path_populate self env s w data) as (w1 & Hget & _ & Hloc);
      try done.
    assert (Hpop : dir_size (populated s data w) = Z.of_nat (length data) + dir_size (local w)).
    { unfold populated. by rewrite dir_size_insert_fresh. }
    rewrite evicted_within in Hloc by lia. simpl in Hloc.
    exists (Ok (local_path self (upper s))), w1. split; [done|]. rewrite Hloc.
    split_and!; try done.
    + intros n Hn. unfold populated. destruct (decide (n = upper s)) as [->|Hne].
      * rewrite lookup_insert_eq. by eexists.
      * by rewrite lookup_insert_ne.
    + lia.
    + intros _. unfold populated. rewrite lookup_insert_eq. by eexists.
  - destruct (get_db_path_miss_cases self env s w Hl Hk)
      as [(data & w2 & ? & _)|(w1 & _ & Hget & _)]; [congruence|].
    assert (local w1 = local w) as Hsame.
    { destruct Hclean as [Hs3|Hatomic].
      - unfold fetched in Hfetch.
        destruct (s3_object self env (upper s)); [done|].
        rewrite get_db_path_no_bucket_fail in Hget by done. by injection Hget as <-.
      - by eapply get_db_path_failure_unchanged. }
    exists (Raise (DownloadError (upper s))), w1. split; [done|]. rewrite Hsame.
    split_and!; [done|lia|by intros [? ?]|by intros e [= <-]|done].
Qed.

(** X14. Preloading states that are all in the cache directory costs
    nothing: no network call is made, no warning is logged, no file is
    created or removed, every file keeps its bytes, and the log grows by one
    cache-hit record per state, in order. *)
Theorem preload_warm self env states w :
  (∀ s, s ∈ states → is_Some (local w !! upper s)) →
  (preload self env states w).1 = [] ∧
  calls (preload self env states w).2 = calls w ∧
  dom (local (preload self env states w).2) = dom (local w) ∧
  (content <$> local (preload self env states w).2) = (content <$> local w) ∧
  logs (preload self env states w).2 = logs w ++ ((λ s, LogLocalHit (upper s)) <$> states).
Proof.
  revert w. induction states as [|s states IH]; intros w Hall; simpl.
  { by rewrite app_nil_r. }
  destruct (Hall s) as [f0 Hk]; [by left|].
  rewrite (get_db_path_hit _ _ _ _ f0) by done.
  set (w1 := put_file _ _ _).
  assert (Hdom : dom (local w1) = dom (local w)).
  { unfold w1. simpl. rewrite dom_insert_L.
    apply subseteq_union_1_L, singleton_subseteq_l. by eapply elem_of_dom_2. }
  assert (Hcontent : (content <$> local w1) = (content <$> local w)).
  { unfold w1. simpl. rewrite fmap_insert. simpl. apply insert_id.
    by rewrite lookup_fmap, Hk. }
  destruct (IH w1) as (Hwarn & Hcalls & Hdom' & Hcontent' & Hlogs).
  { intros s' Hs'. apply elem_of_dom. rewrite Hdom. apply elem_of_dom, Hall. by right. }
  rewrite Hwarn, Hcalls, Hdom', Hcontent', Hlogs, Hdom, Hcontent.
  split_and!; try done. unfold w1. simpl. by rewrite <-app_assoc.
Qed.

Lemma preload_warm_witness :
  let self := mkStorage "/data/fia" (Some "fia-data") "fia-duckdb" 5 in
  let env := simple_env listing [] [] in
  let w := mkWorld {[ "NC" := mkFile (blob 10) 1 1; "GA" := mkFile (blob 10) 2 2 ]} 7 [] [] in
  (∀ s, s ∈ ["nc"; "GA"; "Nc"] → is_Some (local w !! upper s)) ∧
  (preload self env ["nc"; "GA"; "Nc"] w).1 = [] ∧
  calls (preload self env ["nc"; "GA"; "Nc"] w).2 = [] ∧
  logs (preload self env ["nc"; "GA"; "Nc"] w).2
    = [LogLocalHit "NC"; LogLocalHit "GA"; LogLocalHit "NC"].
Proof.
  intros self env w.
  assert (Hall : ∀ s, s ∈ ["nc"; "GA"; "Nc"] → is_Some (local w !! upper s)).
  { intros s Hs. repeat (apply elem_of_cons in Hs as [->|Hs]; [vm_compute; by eexists|]).
    by apply elem_of_nil in Hs. }
  split; [exact Hall|].
  destruct (preload_warm self env ["nc"; "GA"; "Nc"] w Hall)
    as (Hwarn & Hcalls & _ & _ & Hlogs).
  split; [exact Hwarn|]. split; [exact Hcalls|]. exact Hlogs.
Defined.

(** X15. One state that cannot be fetched does not stop the preload. When
    the directory has room for everything the list can bring in (so that no
    eviction is due) and a failed S3 download leaves nothing behind (or no
    bucket is configured): every file that was in the directory is still
    there, every listed state that a tier delivers is in the directory at the
    end, whatever failed before or after it, and the warnings name exactly
    the listed states that are neither cached nor delivered, each with the
    DataMart's failure. *)
Theorem preload_partial_failure self env states w :
  lists_dir env →
  truthy (s3_bucket self) = false ∨ client_atomic env →
  dir_size (local w) + fetch_sizes self env states ≤ max_local_bytes self →
  (∀ n, is_Some (local w !! n) → is_Some (local (preload self env states w).2 !! n)) ∧
  (∀ s, s ∈ states → is_Some (fetched self env (upper s)) →
        is_Some (local (preload self env states w).2 !! upper s)) ∧
  (∀ s e, (s, e) ∈ (preload self env states w).1 →
          s ∈ states ∧ e = DownloadError (upper s) ∧
          local w !! upper s = None ∧ fetched self env (upper s) = None) ∧
  (∀ s, s ∈ states → local w !! upper s = None → fetched self env (upper s) = None →
        (s, DownloadError (upper s)) ∈ (preload self env states w).1).
Proof.
  intros Hl Hclean. revert w.
  induction states as [|s states IH]; intros w Hroom.
  { simpl. split_and!; try done.
    - by intros s ?%elem_of_nil.
    - by intros s e ?%elem_of_nil.
    - by intros s ?%elem_of_nil. }
  rewrite fetch_sizes_cons in Hroom.
  pose proof (fetch_sizes_nonneg self env states) as Hnn.
  destruct (get_db_path_with_room self env s w Hl Hclean ltac:(lia))
    as (r & w1 & Hget & Hkeep & Hsize & Hthere & Hraise & Hfail).
  destruct (IH w1 ltac:(lia)) as (IHkeep & IHthere & IHwarn & IHfail).
  assert (Hback : ∀ s', local w1 !! upper s' = None → local w !! upper s' = None).
  { intros s' Hnone. destruct (local w !! upper s') eqn:E; [|done].
    destruct (Hkeep (upper s')) as [? ?]; [by eexists|congruence]. }
  simpl. rewrite Hget.
  destruct r as [p|e].
  - split_and!.
    + intros n Hn. by apply IHkeep, Hkeep.
    + intros s' [->|Hs']%elem_of_cons Hf; [by apply IHkeep, Hthere|by apply IHthere].
    + intros s' e Hin. destruct (IHwarn s' e Hin) as (? & ? & ? & ?).
      split_and!; try done; [by right|by apply Hback].
    + intros s' [->|Hs']%elem_of_cons Hnone Hf.
      * by specialize (Hfail Hnone Hf).
      * apply IHfail; try done.
        destruct (local w1 !! upper s') as [f1|] eqn:E; [exfalso|done].
        destruct (decide (upper s' = upper s)) as [Heq|Hne].
        -- rewrite Heq in Hnone, Hf.
           destruct (get_db_path_miss_cases self env s w Hl Hnone)
             as [(? & ? & ? & _)|(? & _ & ? & _)]; congruence.
        -- pose proof (get_db_path_other_files_aux self env s w (Ok p) w1 Hl Hget
                         (upper s') f1 Hne E). congruence.
  - destruct (preload self env states w1) as [warnings w2] eqn:Hrest. simpl in *.
    destruct (Hraise e eq_refl) as (-> & Hnone & Hf).
    split_and!.
    + intros n Hn. by apply IHkeep, Hkeep.
    + intros s' [->|Hs']%elem_of_cons Hf'; [by rewrite Hf in Hf'; destruct Hf'|].
      by apply IHthere.
    + intros s' e [[= -> ->]|Hin]%elem_of_cons; [split_and!; try done; by left|].
      destruct (IHwarn s' e Hin) as (? & ? & ? & ?).
      split_and!; try done; [by right|by apply Hback].
    + intros s' [->|Hs']%elem_of_cons Hnone' Hf'; [by left|right].
      apply IHfail; try done.
      destruct (local w1 !! upper s') as [f1|] eqn:E; [exfalso|done].
      destruct (decide (upper s' = upper s)) as [Heq|Hne].
      * rewrite Heq in E.
        destruct (get_db_path_miss_cases self env s w Hl Hnone)
          as [(? & ? & ? & _)|(w3 & _ & Hget3 & _)]; [congruence|].
        destruct Hclean as [Hs3|Hatomic].
        -- unfold fetched in Hf. destruct (s3_object self env (upper s)); [done|].
           rewrite get_db_path_no_bucket_fail in Hget by done.
           injection Hget as <-. simpl in E. congruence.
        -- pose proof (get_db_path_failure_unchanged self env s w _ w1 Hatomic Hnone
                         Hget Hl) as Hsame. congruence.
      * pose proof (get_db_path_other_files_aux self env s w _ w1 Hl Hget
                      (upper s') f1 Hne E). congruence.
Qed.

(** "ZZ" is unknown to the DataMart, "NC" and "GA" are not: the preload
    logs one warning and leaves the two files. *)
Lemma preload_partial_failure_witness :
  let self := mkStorage "/data/fia" None "fia-duckdb" 25 in
  let env := simple_env listing ["NC"; "GA"] (blob 10) in
  let r := preload self env ["nc"; "zz"; "ga"] empty_world in
  lists_dir env ∧
  dir_size (local empty_world) + fetch_sizes self env ["nc"; "zz"; "ga"]
    ≤ max_local_bytes self ∧
  is_Some (local r.2 !! "NC") ∧ is_Some (local r.2 !! "GA") ∧
  ("zz", DownloadError "ZZ") ∈ r.1.
Proof.
  intros self env r. split; [apply lists_dir_listing|]. split; [by vm_compute|].
  destruct (preload_partial_failure self env ["nc"; "zz"; "ga"] empty_world)
    as (_ & Hthere & _ & Hfail); [apply lists_dir_listing|by left|by vm_compute|].
  split_and!.
  - apply (Hthere "nc"); [by left|vm_compute; by eexists].
  - apply (Hthere "ga"); [right; right; by left|vm_compute; by eexists].
  - apply (Hfail "zz"); [right; by left|by vm_compute..].
Defined.

(** ** The build script *)

Lemma build_states_cons env bucket prefix s states b :
  build_states env bucket prefix (s :: states) b =
    build_states env bucket prefix states (build_state env bucket prefix s b).
Proof. done. Qed.

Lemma build_state_clock env bucket prefix s b :
  build_clock (build_state env bucket prefix s b) = build_clock b.
Proof.
  unfold build_state. destruct (download env s); [|done].
  by destruct (upload_file env _ _ _).
Qed.

Lemma build_state_calls env bucket prefix s b :
  build_calls (build_state env bucket prefix s b) =
    build_calls b ++ build_calls_of env bucket prefix s.
Proof.
  unfold build_state, build_calls_of. destruct (download env s); [|done].
  destruct (upload_file env _ _ _); simpl; by rewrite <-app_assoc.
Qed.

Lemma build_state_other env bucket prefix s b n :
  n ≠ s → work (build_state env bucket prefix s b) !! n = work b !! n.
Proof.
  intros Hn. unfold build_state. destruct (download env s); [|done].
  destruct (upload_file env _ _ _); simpl.
  - rewrite lookup_delete_ne by done. by rewrite lookup_insert_ne.
  - by rewrite lookup_insert_ne.
Qed.

Lemma build_states_other env bucket prefix states b n :
  n ∉ states → work (build_states env bucket prefix states b) !! n = work b !! n.
Proof.
  revert b. induction states as [|s states IH]; intros b Hn; [done|].
  rewrite build_states_cons, IH by (intros ?; apply Hn; by right).
  apply build_state_other. intros ->. apply Hn. by left.
Qed.

Lemma build_states_clock env bucket prefix states b :
  build_clock (build_states env bucket prefix states b) = build_clock b.
Proof.
  revert b. induction states as [|s states IH]; intros b; [done|].
  by rewrite build_states_cons, IH, build_state_clock.
Qed.

Lemma build_states_calls env bucket prefix states b :
  build_calls (build_states env bucket prefix states b) =
    build_calls b ++ concat (build_calls_of env bucket prefix <$> states).
Proof.
  revert b. induction states as [|s states IH]; intros b.
  { simpl. by rewrite app_nil_r. }
  rewrite build_states_cons, IH, build_state_calls, fmap_cons. simpl.
  by rewrite <-app_assoc.
Qed.

Lemma STATES_NoDup : NoDup STATES.
Proof. apply (bool_decide_unpack _). by vm_compute. Qed.

Lemma STATES_upper s : s ∈ STATES → upper s = s.
Proof.
  assert (H : Forall (λ s, upper s = s) STATES)
    by (apply (bool_decide_unpack _); by vm_compute).
  rewrite Forall_forall in H. apply H.
Qed.

(** What the loop leaves in the work directory for a state it went through
    once. *)
Lemma build_states_work env bucket prefix states b s :
  NoDup states → s ∈ states →
  work (build_states env bucket prefix states b) !! s =
    match download env s with
    | None => work b !! s
    | Some data =>
        if upload_file env (Some data) bucket (build_key prefix s) then None
        else Some (mkFile data (build_clock b) (build_clock b))
    end.
Proof.
  intros Hnd. revert b. induction Hnd as [|x states Hx Hnd IH]; intros b Hs.
  { by apply elem_of_nil in Hs. }
  rewrite build_states_cons.
  destruct (decide (s = x)) as [->|Hne].
  - rewrite build_states_other by done. unfold build_state.
    destruct (download env x) as [data|]; [|done].
    destruct (upload_file env _ _ _); simpl.
    + apply lookup_delete_eq.
    + apply lookup_insert_eq.
  - apply elem_of_cons in Hs as [?|Hs]; [done|].
    rewrite IH, build_state_clock, build_state_other by done. done.
Qed.

(** X16. The build script goes through all fifty states whatever fails: for
    each state of [STATES], in order, it downloads from the DataMart once,
    and uploads once exactly when that download succeeded; a failure of one
    state has no effect on the calls made for the others, and the last log
    record is "Build complete!". *)
Theorem build_and_upload_attempts_every_state env bucket prefix b :
  build_calls (build_and_upload env bucket prefix b) =
    build_calls b ++ concat (build_calls_of env bucket prefix <$> STATES) ∧
  (∀ s, s ∈ STATES →
        count_calls (is_origin_fetch s)
          (concat (build_calls_of env bucket prefix <$> STATES)) = 1%nat) ∧
  last (build_logs (build_and_upload env bucket prefix b)) = Some BuildComplete.
Proof.
  split_and!.
  - exact (build_states_calls env bucket prefix STATES b).
  - intros s Hs. pose proof STATES_NoDup as Hnd. revert Hnd Hs.
    generalize STATES. intros states Hnd.
    induction Hnd as [|x states Hx Hnd IH]; intros Hs; [by apply elem_of_nil in Hs|].
    rewrite fmap_cons, concat_cons, count_calls_app.
    assert (Hcount : ∀ y, count_calls (is_origin_fetch s) (build_calls_of env bucket prefix y)
                          = if bool_decide (y = s) then 1%nat else 0%nat).
    { intros y. unfold build_calls_of. simpl. destruct (download env y); simpl;
        destruct (bool_decide (y = s)); done. }
    assert (Hzero : ∀ l, s ∉ l →
              count_calls (is_origin_fetch s)
                (concat (build_calls_of env bucket prefix <$> l)) = 0%nat).
    { induction l as [|y l IHl]; intros Hnotin; [done|].
      rewrite fmap_cons, concat_cons, count_calls_app, Hcount, IHl.
      - rewrite bool_decide_eq_false_2; [done|]. intros ->. apply Hnotin. by left.
      - intros ?. apply Hnotin. by right. }
    rewrite Hcount. destruct (decide (x = s)) as [->|Hne].
    + rewrite bool_decide_eq_true_2 by done. by rewrite Hzero.
    + rewrite bool_decide_eq_false_2 by done.
      apply elem_of_cons in Hs as [?|Hs]; [done|]. by rewrite IH.
  - unfold build_and_upload. cbn [build_logs]. apply last_snoc.
Qed.

(** X17. What the build script leaves in its work directory for a state it
    has downloaded: when the upload returned, the file is removed; when the
    upload raised, the file stays there, whole (the [unlink] comes after the
    upload, inside the [try], and the [except] only logs). *)
Theorem build_and_upload_leftovers env bucket prefix b s data :
  s ∈ STATES →
  download env s = Some data →
  work (build_and_upload env bucket prefix b) !! s =
    if upload_file env (Some data) bucket (build_key prefix s) then None
    else Some (mkFile data (build_clock b) (build_clock b)).
Proof.
  intros Hs Hdl.
  pose proof (build_states_work env bucket prefix STATES b s STATES_NoDup Hs) as Hwork.
  rewrite Hdl in Hwork. exact Hwork.
Qed.

Lemma build_and_upload_leftovers_witness :
  let env := mkEnv listing (λ _ _, NoSuchKey)
                   (λ _ _ key, bool_decide (key ≠ "fia-duckdb/GA.duckdb"))
                   (λ s, if bool_decide (s = "TX") then None else Some (blob 3)) in
  let b := build_and_upload env "fia-data" "fia-duckdb" (mkBuild ∅ 0 [] []) in
  "NC" ∈ STATES ∧ "GA" ∈ STATES ∧
  download env "NC" = Some (blob 3) ∧ download env "GA" = Some (blob 3) ∧
  work b !! "NC" = None ∧
  work b !! "GA" = Some (mkFile (blob 3) 0 0).
Proof.
  intros env b.
  assert (HNC : "NC" ∈ STATES) by (apply (bool_decide_unpack _); by vm_compute).
  assert (HGA : "GA" ∈ STATES) by (apply (bool_decide_unpack _); by vm_compute).
  split; [exact HNC|]. split; [exact HGA|]. split; [done|]. split; [done|]. unfold b.
  rewrite (build_and_upload_leftovers env "fia-data" "fia-duckdb" _ "NC" (blob 3) HNC eq_refl).
  rewrite (build_and_upload_leftovers env "fia-data" "fia-duckdb" _ "GA" (blob 3) HGA eq_refl).
  by vm_compute.
Defined.

(** X18. The build script and the resolver agree on the object keys. Every
    code in [STATES] is in upper case already, so for every spelling [state]
    of such a code the S3 key that the build script uploads under is, letter
    for letter, the key that [get_db_path] asks S3 for: with a bucket
    configured and the file not cached, the first network call of
    [get_db_path] is the download of exactly that key. *)
Theorem build_key_is_lookup_key self env state s w :
  lists_dir env →
  s ∈ STATES → upper state = s →
  truthy (s3_bucket self) = true →
  local w !! s = None →
  upper s = s ∧
  (∀ b, is_Some (download env s) →
        S3Upload (bucket_name self) (build_key (s3_prefix self) s)
          ∈ build_calls (build_state env (bucket_name self) (s3_prefix self) s b)) ∧
  ∃ cs, calls (get_db_path self env state w).2 =
          calls w ++ S3Download (bucket_name self) (build_key (s3_prefix self) s) :: cs.
Proof.
  intros Hl Hs Hup Hs3 Hmiss. split; [by apply STATES_upper|]. split.
  { intros b [data Hdata]. rewrite build_state_calls. unfold build_calls_of.
    rewrite Hdata, elem_of_app. right. right. by left. }
  assert (Hkey : s3_key self (upper state) = build_key (s3_prefix self) s)
    by (by rewrite Hup).
  assert (Hdc : s3_download_calls self (upper state)
                = [S3Download (bucket_name self) (build_key (s3_prefix self) s)]).
  { unfold s3_download_calls. by rewrite Hs3, Hkey. }
  rewrite <-Hup in Hmiss.
  destruct (s3_object self env (upper state)) as [obj|] eqn:Hobj.
  { destruct (get_db_path_s3_hit self env state w obj) as (w2 & -> & Hc & _);
      try done. simpl. rewrite Hc, Hkey. by eexists. }
  destruct (download env (upper state)) as [data|] eqn:Hdl.
  - destruct (get_db_path_origin self env state w data) as (w2 & -> & Hc & _);
      try done. simpl. rewrite Hc, Hdc. by eexists.
  - destruct (get_db_path_origin_fail self env state w) as (w2 & -> & Hc & _);
      try done. simpl. rewrite Hc, Hdc. by eexists.
Qed.

Lemma build_key_is_lookup_key_witness :
  let self := mkStorage "/data/fia" (Some "fia-data") "fia-duckdb" 25 in
  let env := mkEnv listing (λ _ _, S3Object (blob 7)) (λ _ _ _, true) (λ _, Some (blob 10)) in
  lists_dir env ∧ "NC" ∈ STATES ∧ upper "nc" = "NC" ∧
  ∃ cs, calls (get_db_path self env "nc" empty_world).2 =
          calls empty_world ++ S3Download "fia-data" (build_key "fia-duckdb" "NC") :: cs.
Proof.
  intros self env.
  assert (HNC : "NC" ∈ STATES) by (apply (bool_decide_unpack _); by vm_compute).
  split; [apply lists_dir_listing|]. split; [exact HNC|]. split; [done|].
  destruct (build_key_is_lookup_key self env "nc" "NC" empty_world)
    as (_ & _ & Hcalls); [apply lists_dir_listing|exact HNC|done..|].
  exact Hcalls.
Defined.
